(** * ChessVar: a shallow embedding of the rule engine in [ChessVar.py]

    The engine is a small object graph: a [ChessVar] game owns a [Board]
    (a dictionary from position strings to [BoardPosition] objects), two
    [Player] objects with their lists of active pieces, a turn reference and
    a game state.  Pieces and board positions point at each other.

    The embedding keeps the objects' identities and puts every mutable field
    in an explicit store that is threaded through the methods:

    - a [Player] object is identified by its colour ([player_list[0]] is
      White, [player_list[1]] is Black);
    - a [BoardPosition] object is identified by its position string, which is
      also its key in [Board._board_state]; the dictionary is built once with
      the 64 keys of [board_keys] and no key is ever added or removed;
    - a [Piece] object is identified by its owner, its type and its index in
      the roster its owner was created with; owner and type never change.

    Python exceptions are values of [exn]; a method returns a [result]. *)

From stdpp Require Import gmap strings list fin_maps.
From Stdlib Require Import Ascii String.

Local Open Scope string_scope.
Set Warnings "-clear-no-such-hyp".

(** ** Exceptions and results *)

(** The three exception classes of the module and the built-in exceptions
    that indexing, dictionary lookup, attribute access on [None],
    [list.remove] and [int()] can raise.  [OutOfFuel] is not a Python
    exception: it marks a [while True] loop cut off by the fuel of
    its model (see [slide] and [slide_fuel_enough]). *)
Inductive exn : Type :=
  | GameOverError
  | MoveOutOfTurnError
  | IllegalMoveError
  | IndexError
  | KeyError
  | AttributeError
  | ValueError
  | OutOfFuel.

Inductive result (A : Type) : Type :=
  | Ok (a : A)
  | Raise (e : exn).
Arguments Ok {A} a.
Arguments Raise {A} e.

#[global] Instance result_ret : MRet result := λ A a, Ok a.
#[global] Instance result_bind : MBind result := λ A B f m,
  match m with
  | Ok a => f a
  | Raise e => Raise e
  end.

#[global] Instance result_fmap : FMap result := λ A B f m,
  match m with
  | Ok a => Ok (f a)
  | Raise e => Raise e
  end.

#[global] Instance exn_eq_dec : EqDecision exn.
Proof. solve_decision. Defined.

(** ** Data model *)

Inductive Color : Type := White | Black.

Inductive PieceType : Type := Pawn | Knight | Bishop | Rook | Queen | King.

Inductive GameState : Type := UNFINISHED | WHITE_WON | BLACK_WON.

(** The eight direction strings computed by [Piece.move]. *)
Inductive Direction : Type :=
  | up | down | left | right
  | diagonal_up_right | diagonal_down_right
  | diagonal_up_left | diagonal_down_left.

(** A reference to a piece object. *)
Record Piece : Type := mkPiece {
  get_owner : Color;
  get_type : PieceType;
  piece_index : nat
}.

#[global] Instance Color_eq_dec : EqDecision Color.
Proof. solve_decision. Defined.
#[global] Instance PieceType_eq_dec : EqDecision PieceType.
Proof. solve_decision. Defined.
#[global] Instance GameState_eq_dec : EqDecision GameState.
Proof. solve_decision. Defined.
#[global] Instance Direction_eq_dec : EqDecision Direction.
Proof. solve_decision. Defined.
#[global] Instance Piece_eq_dec : EqDecision Piece.
Proof. solve_decision. Defined.

Definition Color_to_bool (c : Color) : bool :=
  match c with White => true | Black => false end.
Definition Color_of_bool (b : bool) : Color :=
  if b then White else Black.

Definition PieceType_to_nat (t : PieceType) : nat :=
  match t with
  | Pawn => 0 | Knight => 1 | Bishop => 2 | Rook => 3 | Queen => 4 | King => 5
  end.
Definition PieceType_of_nat (n : nat) : PieceType :=
  match n with
  | 0 => Pawn | 1 => Knight | 2 => Bishop | 3 => Rook | 4 => Queen | _ => King
  end.

#[global] Program Instance Piece_countable : Countable Piece :=
  inj_countable'
    (λ p, (Color_to_bool (get_owner p), PieceType_to_nat (get_type p), piece_index p))
    (λ t, mkPiece (Color_of_bool t.1.1) (PieceType_of_nat t.1.2) t.2) _.
Next Obligation. by intros [[] [] n]. Qed.

(** The whole mutable state reachable from a [ChessVar] object. *)
Record ChessVar : Type := mkChessVar {
  (** [BoardPosition._piece] of the board position with the given string;
      no entry stands for [None]. *)
  board_state : gmap string Piece;
  (** [Piece._position]: the string of the board position the piece points
      at; no entry stands for [None]. *)
  position : gmap Piece string;
  (** [Player._piece_list] of [player_list[0]] and of [player_list[1]]. *)
  white_piece_list : list Piece;
  black_piece_list : list Piece;
  game_state : GameState;
  (** [ChessVar._turn], a reference to one of the two players. *)
  turn : Color
}.

Definition get_piece_list (c : Color) (g : ChessVar) : list Piece :=
  match c with
  | White => white_piece_list g
  | Black => black_piece_list g
  end.

(** The keys of [Board._board_state], in the order [Board.__init__] lists
    them. *)
Definition board_keys : list string :=
  [ "a1"; "a2"; "a3"; "a4"; "a5"; "a6"; "a7"; "a8";
    "b1"; "b2"; "b3"; "b4"; "b5"; "b6"; "b7"; "b8";
    "c1"; "c2"; "c3"; "c4"; "c5"; "c6"; "c7"; "c8";
    "d1"; "d2"; "d3"; "d4"; "d5"; "d6"; "d7"; "d8";
    "e1"; "e2"; "e3"; "e4"; "e5"; "e6"; "e7"; "e8";
    "f1"; "f2"; "f3"; "f4"; "f5"; "f6"; "f7"; "f8";
    "g1"; "g2"; "g3"; "g4"; "g5"; "g6"; "g7"; "g8";
    "h1"; "h2"; "h3"; "h4"; "h5"; "h6"; "h7"; "h8" ].

(** [Board.get_board_position]: [self._board_state[position_string]]. *)
Definition get_board_position (position_string : string) : result string :=
  if decide (position_string ∈ board_keys) then Ok position_string
  else Raise KeyError.

(** [Board.get_position_state]:
    [self._board_state[position_string].get_piece()]. *)
Definition get_position_state (position_string : string) (g : ChessVar)
  : result (option Piece) :=
  bp ← get_board_position position_string;
  Ok (board_state g !! bp).

(** [s[i]] on a Python string. *)
Definition index (s : string) (i : nat) : result ascii :=
  match String.get i s with
  | Some c => Ok c
  | None => Raise IndexError
  end.

(** [int(c)] on a one-character string. *)
Definition int_of_char (c : ascii) : result Z :=
  if (("0" <=? c) && (c <=? "9"))%char then Ok (Z.of_nat (nat_of_ascii c) - 48)%Z
  else Raise ValueError.

(** Concatenation of two one-character strings. *)
Definition str2 (c0 c1 : ascii) : string := String c0 (String c1 EmptyString).

(** ** [Piece.iterate_position_str] *)

(** A run of [if character == k: return v] statements; falling off the end
    of the run reaches the end of the method, which returns [None]. *)
Fixpoint if_chain (character : ascii) (cases : list (ascii * option ascii))
  : option ascii :=
  match cases with
  | [] => None
  | (k, v) :: cases' =>
      if (character =? k)%char then v else if_chain character cases'
  end.

(** [lo <= character <= hi] on one-character strings. *)
Definition between (lo character hi : ascii) : bool :=
  ((lo <=? character) && (character <=? hi))%char.

Definition iterate_position_str (self : Piece) (character : ascii)
    (direction : nat) (distance : option nat) : option ascii :=
  if bool_decide (get_type self ≠ Knight) || bool_decide (distance = Some 1)
  then
    if bool_decide (direction = 0) then
      if between "a" character "h" then
        if_chain character
          [ ("a", None); ("b", Some "a"); ("c", Some "b"); ("d", Some "c");
            ("e", Some "d"); ("f", Some "e"); ("g", Some "f"); ("h", Some "g") ]%char
      else if between "1" character "8" then
        if_chain character
          [ ("1", None); ("2", Some "1"); ("3", Some "2"); ("4", Some "3");
            ("5", Some "4"); ("6", Some "5"); ("7", Some "6"); ("8", Some "7") ]%char
      else None
    else
      if between "a" character "h" then
        if_chain character
          [ ("a", Some "b"); ("b", Some "c"); ("c", Some "d"); ("d", Some "e");
            ("e", Some "f"); ("f", Some "g"); ("g", Some "h"); ("h", None) ]%char
      else if between "1" character "8" then
        if_chain character
          [ ("1", Some "2"); ("2", Some "3"); ("3", Some "4"); ("4", Some "5");
            ("5", Some "6"); ("6", Some "7"); ("7", Some "8"); ("8", None) ]%char
      else None
  else
    if bool_decide (direction = 0) then
      if between "a" character "h" then
        if_chain character
          [ ("a", None); ("b", None); ("c", Some "a"); ("d", Some "b");
            ("e", Some "c"); ("f", Some "d"); ("g", Some "e"); ("h", Some "f") ]%char
      else if between "1" character "8" then
        if_chain character
          [ ("1", None); ("2", None); ("3", Some "1"); ("4", Some "2");
            ("5", Some "3"); ("6", Some "4"); ("7", Some "5"); ("8", Some "6") ]%char
      else None
    else
      if between "a" character "h" then
        if_chain character
          [ ("a", Some "c"); ("b", Some "d"); ("c", Some "e"); ("d", Some "f");
            ("e", Some "g"); ("f", Some "h"); ("g", None); ("h", None) ]%char
      else if between "1" character "8" then
        if_chain character
          [ ("1", Some "3"); ("2", Some "4"); ("3", Some "5"); ("4", Some "6");
            ("5", Some "7"); ("6", Some "8"); ("7", None); ("8", None) ]%char
      else None.

(** ** [Piece.next_position] *)

(** ["diagonal" in direction]. *)
Definition diagonal_in (direction : Direction) : bool :=
  match direction with
  | up | down | left | right => false
  | _ => true
  end.

(** The three shapes every branch of [next_position] has.  Each computes the
    new characters with [iterate_position_str], returns [None] when one of
    them is [None], and otherwise looks the concatenation up on the board. *)

(** [new_num = iterate(cur[1], v)]; the string is [cur[0] + new_num]. *)
Definition step_vertical (self : Piece) (current_position_string : string)
    (v : nat) : result (option string) :=
  c1 ← index current_position_string 1;
  match iterate_position_str self c1 v None with
  | None => Ok None
  | Some new_num =>
      c0 ← index current_position_string 0;
      Some <$> get_board_position (str2 c0 new_num)
  end.

(** [new_letter = iterate(cur[0], h)]; the string is [new_letter + cur[1]]. *)
Definition step_horizontal (self : Piece) (current_position_string : string)
    (h : nat) : result (option string) :=
  c0 ← index current_position_string 0;
  match iterate_position_str self c0 h None with
  | None => Ok None
  | Some new_letter =>
      c1 ← index current_position_string 1;
      Some <$> get_board_position (str2 new_letter c1)
  end.

(** [new_letter = iterate(cur[0], h)], [new_num = iterate(cur[1], v)], each
    with the given [distance]; the string is [new_letter + new_num]. *)
Definition step_both (self : Piece) (current_position_string : string)
    (h : nat) (dh : option nat) (v : nat) (dv : option nat)
  : result (option string) :=
  c0 ← index current_position_string 0;
  let new_letter := iterate_position_str self c0 h dh in
  c1 ← index current_position_string 1;
  let new_num := iterate_position_str self c1 v dv in
  match new_letter, new_num with
  | Some l, Some n => Some <$> get_board_position (str2 l n)
  | _, _ => Ok None
  end.

Definition step_diagonal (self : Piece) (current_position_string : string)
    (h v : nat) : result (option string) :=
  step_both self current_position_string h None v None.

(** The Knight branch for one diagonal quadrant: [h] and [v] are the
    directions handed to [iterate_position_str], and [above] tells whether the
    destination rank is above ([int(cur[1]) == int(dest[1]) - k]) or below
    ([int(cur[1]) == int(dest[1]) + k]) the current one.  When the rank
    difference is neither 1 nor 2, [new_letter] and [new_num] keep their
    initial [None] and the method returns [None]. *)
Definition step_knight (self : Piece) (current_position_string
    destination_position_string : string) (h v : nat) (above : bool)
  : result (option string) :=
  c1 ← index current_position_string 1;
  rc ← int_of_char c1;
  d1 ← index destination_position_string 1;
  rd ← int_of_char d1;
  let delta_is (k : Z) : bool :=
    if above then bool_decide (rc = rd - k)%Z
    else bool_decide (rc = rd + k)%Z in
  if delta_is 1%Z then step_both self current_position_string h (Some 2) v (Some 1)
  else if delta_is 2%Z then step_both self current_position_string h (Some 1) v (Some 2)
  else Ok None.

Definition next_position (self : Piece) (current_position_string : string)
    (direction : Direction) (destination_position_string : string)
  : result (option string) :=
  match get_type self with
  | Pawn =>
      match get_owner self with
      | White =>
          match direction with
          | up => step_vertical self current_position_string 1
          | diagonal_up_right => step_diagonal self current_position_string 1 1
          | diagonal_up_left => step_diagonal self current_position_string 0 1
          | _ => Ok None
          end
      | Black =>
          match direction with
          | down => step_vertical self current_position_string 0
          | diagonal_down_right => step_diagonal self current_position_string 1 0
          | diagonal_down_left => step_diagonal self current_position_string 0 0
          | _ => Ok None
          end
      end
  | Bishop =>
      match direction with
      | diagonal_up_right => step_diagonal self current_position_string 1 1
      | diagonal_up_left => step_diagonal self current_position_string 0 1
      | diagonal_down_right => step_diagonal self current_position_string 1 0
      | diagonal_down_left => step_diagonal self current_position_string 0 0
      | _ => Ok None
      end
  | Knight =>
      match direction with
      | diagonal_up_right =>
          step_knight self current_position_string destination_position_string 1 1 true
      | diagonal_up_left =>
          step_knight self current_position_string destination_position_string 0 1 true
      | diagonal_down_right =>
          step_knight self current_position_string destination_position_string 1 0 false
      | diagonal_down_left =>
          step_knight self current_position_string destination_position_string 0 0 false
      | _ => Ok None
      end
  | Rook =>
      match direction with
      | up => step_vertical self current_position_string 1
      | down => step_vertical self current_position_string 0
      | left => step_horizontal self current_position_string 0
      | right => step_horizontal self current_position_string 1
      | _ => Ok None
      end
  | Queen | King =>
      match direction with
      | up => step_vertical self current_position_string 1
      | down => step_vertical self current_position_string 0
      | left => step_horizontal self current_position_string 0
      | right => step_horizontal self current_position_string 1
      | diagonal_up_right => step_diagonal self current_position_string 1 1
      | diagonal_up_left => step_diagonal self current_position_string 0 1
      | diagonal_down_right => step_diagonal self current_position_string 1 0
      | diagonal_down_left => step_diagonal self current_position_string 0 0
      end
  end.

(** ** [Piece.move] *)

(** What [Piece.move] returns: [False], [True], or the captured piece. *)
Inductive MoveValue : Type :=
  | RFalse
  | RTrue
  | RPiece (captured_piece : Piece).

(** [1], [0] or [-1] from comparing one character of the starting string
    with the same character of the destination string. *)
Definition compare_chars (a b : ascii) : Z :=
  if (a <? b)%char then 1 else if (a =? b)%char then 0 else (-1).

(** The direction string of a pair [(horizontal, vertical)]; [None] is the
    pair [(0, 0)], on which [move] returns [False]. *)
Definition direction_of (horizontal vertical : Z) : option Direction :=
  if bool_decide (horizontal = 0 ∧ vertical = 0)%Z then None
  else if bool_decide (horizontal = 0 ∧ vertical = 1)%Z then Some up
  else if bool_decide (horizontal = 0 ∧ vertical = -1)%Z then Some down
  else if bool_decide (horizontal = 1 ∧ vertical = 0)%Z then Some right
  else if bool_decide (horizontal = 1 ∧ vertical = 1)%Z then Some diagonal_up_right
  else if bool_decide (horizontal = 1 ∧ vertical = -1)%Z then Some diagonal_down_right
  else if bool_decide (horizontal = -1 ∧ vertical = 0)%Z then Some left
  else if bool_decide (horizontal = -1 ∧ vertical = 1)%Z then Some diagonal_up_left
  else Some diagonal_down_left.

(** "Determine direction of move." *)
Definition move_direction (starting_position_string
    destination_position_string : string) : result (option Direction) :=
  s0 ← index starting_position_string 0;
  d0 ← index destination_position_string 0;
  let horizontal := compare_chars s0 d0 in
  s1 ← index starting_position_string 1;
  d1 ← index destination_position_string 1;
  let vertical := compare_chars s1 d1 in
  Ok (direction_of horizontal vertical).

(** One call of the stepper followed by the capture-only test of a diagonal
    pawn move: the square must be occupied, be the destination, and hold a
    piece of the other player. *)
Definition pawn_diagonal (self : Piece) (current : string)
    (direction : Direction) (destination : string) (g : ChessVar)
  : result bool :=
  next ← next_position self current direction destination;
  match next with
  | None => Ok false
  | Some next =>
      match board_state g !! next with
      | None => Ok false
      | Some other =>
          if bool_decide (next ≠ destination) then Ok false
          else if bool_decide (get_owner self = get_owner other) then Ok false
          else Ok true
      end
  end.

(** The [for loop in range(0, 2)] of a pawn on its starting rank; [loops] is
    what is left of the range. *)
Fixpoint pawn_first_move (loops : list nat) (self : Piece) (current : string)
    (direction : Direction) (destination : string) (g : ChessVar)
  : result bool :=
  match loops with
  | [] => Ok true
  | loop :: loops' =>
      next ← next_position self current direction destination;
      match next with
      | None => Ok false
      | Some next =>
          match board_state g !! next with
          | None =>
              if bool_decide (next ≠ destination) then
                if bool_decide (loop = 0)
                then pawn_first_move loops' self next direction destination g
                else Ok false
              else Ok true
          | Some _ => Ok false
          end
      end
  end.

(** A pawn off its starting rank: one step, a capture when diagonal, an empty
    destination otherwise. *)
Definition pawn_later_move (self : Piece) (current : string)
    (direction : Direction) (destination : string) (g : ChessVar)
  : result bool :=
  next ← next_position self current direction destination;
  match next with
  | None => Ok false
  | Some next =>
      if diagonal_in direction then
        match board_state g !! next with
        | None => Ok false
        | Some other =>
            if bool_decide (next ≠ destination) then Ok false
            else if bool_decide (get_owner self = get_owner other) then Ok false
            else Ok true
        end
      else
        match board_state g !! next with
        | None => if bool_decide (next ≠ destination) then Ok false else Ok true
        | Some _ => Ok false
        end
  end.

(** "Legal move test (King / Knight)". *)
Definition single_step (self : Piece) (current : string)
    (direction : Direction) (destination : string) (g : ChessVar)
  : result bool :=
  next ← next_position self current direction destination;
  match next with
  | None => Ok false
  | Some next =>
      if bool_decide (next ≠ destination) then Ok false
      else
        match board_state g !! next with
        | Some other =>
            if bool_decide (get_owner self = get_owner other) then Ok false
            else Ok true
        | None => Ok true
        end
  end.

(** "Legal move test (All others)": the [while True] loop, one iteration per
    unit of fuel. *)
Fixpoint slide (fuel : nat) (self : Piece) (current : string)
    (direction : Direction) (destination : string) (g : ChessVar)
  : result bool :=
  match fuel with
  | 0 => Raise OutOfFuel
  | S fuel' =>
      next ← next_position self current direction destination;
      match next with
      | None => Ok false
      | Some next =>
          match board_state g !! next with
          | None =>
              if bool_decide (next ≠ destination)
              then slide fuel' self next direction destination g
              else Ok true
          | Some other =>
              if bool_decide (next ≠ destination) then Ok false
              else if bool_decide (get_owner self = get_owner other) then Ok false
              else Ok true
          end
      end
  end.

(** The fuel of the loop: a walk along a rank, a file or a diagonal steps on
    fewer squares than a line has, and the loop makes one more call of the
    stepper, the one that leaves the board (see [slide_fuel_enough]). *)
Definition slide_fuel : nat := 9.

(** "Determine whether move to specified position is legal": the part of
    [move] between the direction and the first mutation.  It reads the state
    and writes nothing. *)
Definition legal_move_test (self : Piece) (starting_position_string : string)
    (direction : Direction) (destination : string) (g : ChessVar)
  : result bool :=
  match get_type self with
  | Pawn =>
      s1 ← index starting_position_string 1;
      if ((s1 =? "2")%char && bool_decide (get_owner self = White))
         || ((s1 =? "7")%char && bool_decide (get_owner self = Black))
      then
        if diagonal_in direction
        then pawn_diagonal self starting_position_string direction destination g
        else pawn_first_move (seq 0 2) self starting_position_string direction
               destination g
      else pawn_later_move self starting_position_string direction destination g
  | King | Knight =>
      single_step self starting_position_string direction destination g
  | _ =>
      slide slide_fuel self starting_position_string direction destination g
  end.

(** [list.remove(x)]: drops the first occurrence, raises [ValueError] when
    there is none. *)
Fixpoint list_remove (x : Piece) (l : list Piece) : result (list Piece) :=
  match l with
  | [] => Raise ValueError
  | y :: l' => if decide (x = y) then Ok l' else (y ::.) <$> list_remove x l'
  end.

Definition set_piece_list (c : Color) (l : list Piece) (g : ChessVar) : ChessVar :=
  match c with
  | White => mkChessVar (board_state g) (position g) l (black_piece_list g)
               (game_state g) (turn g)
  | Black => mkChessVar (board_state g) (position g) (white_piece_list g) l
               (game_state g) (turn g)
  end.

Definition set_board_position (b : gmap string Piece) (p : gmap Piece string)
    (g : ChessVar) : ChessVar :=
  mkChessVar b p (white_piece_list g) (black_piece_list g) (game_state g) (turn g).

(** "If move is legal (per tests above), this code is executed." *)
Definition execute_move (self : Piece) (starting_position destination : string)
    (g : ChessVar) : result MoveValue * ChessVar :=
  (* starting_position.set_piece(None) *)
  let b1 := delete starting_position (board_state g) in
  (* self._position = position *)
  let p1 := <[self := destination]> (position g) in
  (* captured_piece = position.get_piece() *)
  let captured_piece := b1 !! destination in
  (* position.set_piece(self) *)
  let b2 := <[destination := self]> b1 in
  match captured_piece with
  | None => (Ok RTrue, set_board_position b2 p1 g)
  | Some captured_piece =>
      (* captured_piece.set_position(None) *)
      let p2 := delete captured_piece p1 in
      let g2 := set_board_position b2 p2 g in
      (* captured_piece.get_owner().set_piece_list(captured_piece) *)
      match list_remove captured_piece
              (get_piece_list (get_owner captured_piece) g2) with
      | Raise e => (Raise e, g2)
      | Ok l => (Ok (RPiece captured_piece),
                 set_piece_list (get_owner captured_piece) l g2)
      end
  end.

Definition move (self : Piece) (destination : string) (g : ChessVar)
  : result MoveValue * ChessVar :=
  match position g !! self with
  | None => (Raise AttributeError, g)
  | Some starting_position =>
      match move_direction starting_position destination with
      | Raise e => (Raise e, g)
      | Ok None => (Ok RFalse, g)
      | Ok (Some direction) =>
          match legal_move_test self starting_position direction destination g with
          | Raise e => (Raise e, g)
          | Ok false => (Ok RFalse, g)
          | Ok true => execute_move self starting_position destination g
          end
      end
  end.

(** ** [ChessVar] *)

Definition set_game_state_turn (s : GameState) (t : Color) (g : ChessVar)
  : ChessVar :=
  mkChessVar (board_state g) (position g) (white_piece_list g)
    (black_piece_list g) s t.

(** The other entry of [player_list]. *)
Definition other_player (c : Color) : Color :=
  match c with White => Black | Black => White end.

Definition won (c : Color) : GameState :=
  match c with White => WHITE_WON | Black => BLACK_WON end.

(** [ChessVar.set_turn]; the argument is a string. *)
Definition set_turn (turn_string : string) (g : ChessVar) : ChessVar :=
  if bool_decide (turn_string = "White")
  then set_game_state_turn (game_state g) White g
  else set_game_state_turn (game_state g) Black g.

(** Python's [a or b] on expressions that may raise: [b] is evaluated only
    when [a] is false. *)
Definition por (a b : result bool) : result bool :=
  x ← a; if (x : bool) then Ok true else b.

Definition char_lt (s : string) (i : nat) (c : ascii) : result bool :=
  x ← index s i; Ok (x <? c)%char.
Definition char_gt (s : string) (i : nat) (c : ascii) : result bool :=
  x ← index s i; Ok (c <? x)%char.

(** "Test if string arguments for starting and ending board positions are
    outside game board." *)
Definition outside_board (string1 string2 : string) : result bool :=
  por (char_lt string1 0 "a") (por (char_gt string1 0 "h")
  (por (char_lt string2 0 "a") (por (char_gt string2 0 "h")
  (por (char_lt string1 1 "1") (por (char_gt string1 1 "8")
  (por (char_lt string2 1 "1") (char_gt string2 1 "8"))))))).

(** The loop that looks for a piece of the captured type in the roster. *)
Definition last_piece (captured_type : PieceType) (pieces : list Piece) : bool :=
  forallb (λ piece, bool_decide (captured_type ≠ get_type piece)) pieces.

(** The tail of [make_move], after [Piece.move] has returned. *)
Definition after_move (current_move : MoveValue) (g : ChessVar)
  : result MoveValue * ChessVar :=
  match current_move with
  | RPiece captured =>
      let captured_type := get_type captured in
      let captured_player_pieces := get_piece_list (get_owner captured) g in
      let state1 :=
        if last_piece captured_type captured_player_pieces
        then won (turn g) else game_state g in
      (Ok RTrue, set_game_state_turn state1 (other_player (turn g)) g)
  | RTrue =>
      (Ok RTrue, set_game_state_turn (game_state g) (other_player (turn g)) g)
  | RFalse => (Raise IllegalMoveError, g)
  end.

Definition make_move (string1 string2 : string) (g : ChessVar)
  : result MoveValue * ChessVar :=
  if bool_decide (game_state g = WHITE_WON ∨ game_state g = BLACK_WON)
  then (Raise GameOverError, g)
  else
    match outside_board string1 string2 with
    | Raise e => (Raise e, g)
    | Ok true => (Raise IllegalMoveError, g)
    | Ok false =>
        match get_position_state string1 g with
        | Raise e => (Raise e, g)
        | Ok None => (Raise IllegalMoveError, g)
        | Ok (Some current_piece) =>
            if bool_decide (get_owner current_piece ≠ turn g)
            then (Raise MoveOutOfTurnError, g)
            else
              match get_board_position string2 with
              | Raise e => (Raise e, g)
              | Ok destination =>
                  match move current_piece destination g with
                  | (Raise e, g') => (Raise e, g')
                  | (Ok current_move, g') => after_move current_move g'
                  end
              end
        end
    end.

(** ** The starting position: [ChessVar.__init__] *)

(** The sixteen pieces [Player.__init__] creates, with their squares, in
    roster order. *)
Definition starting_pieces (c : Color) : list (Piece * string) :=
  imap (λ i ts, (mkPiece c ts.1 i, ts.2))
    match c with
    | White =>
        [ (Pawn, "a2"); (Pawn, "b2"); (Pawn, "c2"); (Pawn, "d2");
          (Pawn, "e2"); (Pawn, "f2"); (Pawn, "g2"); (Pawn, "h2");
          (Rook, "a1"); (Rook, "h1"); (Knight, "b1"); (Knight, "g1");
          (Bishop, "c1"); (Bishop, "f1"); (Queen, "d1"); (King, "e1") ]
    | Black =>
        [ (Pawn, "a7"); (Pawn, "b7"); (Pawn, "c7"); (Pawn, "d7");
          (Pawn, "e7"); (Pawn, "f7"); (Pawn, "g7"); (Pawn, "h7");
          (Rook, "a8"); (Rook, "h8"); (Knight, "b8"); (Knight, "g8");
          (Bishop, "c8"); (Bishop, "f8"); (Queen, "d8"); (King, "e8") ]
    end.

Definition new_game : ChessVar :=
  let all := (starting_pieces White ++ starting_pieces Black)%list in
  {| board_state := list_to_map (prod_swap <$> all);
     position := list_to_map all;
     white_piece_list := (starting_pieces White).*1;
     black_piece_list := (starting_pieces Black).*1;
     game_state := UNFINISHED;
     turn := White |}.

(** Playing a list of moves, ignoring the results. *)
Definition play (moves : list (string * string)) (g : ChessVar) : ChessVar :=
  foldl (λ g m, (make_move m.1 m.2 g).2) g moves.

(** ** Vocabulary of the statements *)

(** The coordinate string of file [file] (1 is [a], 8 is [h]) and rank
    [rank] (1 to 8). *)
Definition coord (file rank : nat) : string :=
  str2 (ascii_of_nat (96 + file)) (ascii_of_nat (48 + rank)).

(** The first two characters name a square of the board. *)
Definition on_board (file rank : ascii) : bool :=
  between "a" file "h" && between "1" rank "8".

(** The rank a pawn starts on, and the rank [n] squares ahead of [rank] for
    a pawn of that colour. *)
Definition starting_rank (c : Color) : nat :=
  match c with White => 2 | Black => 7 end.
Definition forward (c : Color) (rank n : nat) : nat :=
  match c with White => rank + n | Black => rank - n end.

(** [Piece.move] accepts the move: it returns [True] or the captured
    piece. *)
Definition accepted (self : Piece) (destination : string) (g : ChessVar)
  : Prop :=
  ∃ v g', move self destination g = (Ok v, g') ∧ v ≠ RFalse.

Definition sliding (self : Piece) : Prop :=
  get_type self = Rook ∨ get_type self = Bishop ∨ get_type self = Queen.

(** [clear_walk self direction destination g n current s]: [n] calls of the
    stepper lead from [current] to [s], and every square stepped on is
    unoccupied and is not the destination. *)
Inductive clear_walk (self : Piece) (direction : Direction)
    (destination : string) (g : ChessVar) : nat → string → string → Prop :=
  | clear_walk_O current :
      clear_walk self direction destination g 0 current current
  | clear_walk_S n current next s :
      next_position self current direction destination = Ok (Some next) →
      board_state g !! next = None →
      next ≠ destination →
      clear_walk self direction destination g n next s →
      clear_walk self direction destination g (S n) current s.

(** [n] successful calls of the stepper in a row; the square they end on. *)
Fixpoint run (n : nat) (self : Piece) (current : string)
    (direction : Direction) (destination : string) : option string :=
  match n with
  | 0 => Some current
  | S n' =>
      match next_position self current direction destination with
      | Ok (Some next) => run n' self next direction destination
      | _ => None
      end
  end.

(** What ties the board, the pieces and the rosters together in every state
    the engine gets into. *)
Record consistent (g : ChessVar) : Prop := {
  occupant_position :
    ∀ sq p, board_state g !! sq = Some p → position g !! p = Some sq;
  occupant_in_roster :
    ∀ sq p, board_state g !! sq = Some p →
            p ∈ get_piece_list (get_owner p) g;
  roster_NoDup : ∀ c, NoDup (get_piece_list c g)
}.

(** The states a caller can get a game into: a new game, then any calls of
    [make_move] (accepted or not) and [set_turn]. *)
Inductive reachable : ChessVar → Prop :=
  | reachable_new_game : reachable new_game
  | reachable_make_move g string1 string2 :
      reachable g → reachable (make_move string1 string2 g).2
  | reachable_set_turn g turn_string :
      reachable g → reachable (set_turn turn_string g).

(** Exceptions of the Python runtime, as opposed to the three the module
    defines. *)
Definition builtin (e : exn) : Prop :=
  e ≠ GameOverError ∧ e ≠ MoveOutOfTurnError ∧ e ≠ IllegalMoveError.

(** Exceptions Python itself raises. *)
Definition python_exn (e : exn) : Prop := builtin e ∧ e ≠ OutOfFuel.

(** Two openings used as examples.  In [queen_hunt] White gives a pawn for
    the black queen's trip to d5, where the knight on c3 can take her; in
    [pawn_trade] the white pawn on e4 can take the black pawn on d5. *)
Definition queen_hunt : list (string * string) :=
  [ ("e2", "e4"); ("d7", "d5"); ("e4", "d5"); ("d8", "d5"); ("b1", "c3");
    ("a7", "a6") ].
Definition pawn_trade : list (string * string) :=
  [ ("e2", "e4"); ("d7", "d5") ].

(** ** Vocabulary of the further statements *)

(** The change of file and of rank one step in a direction makes. *)
Definition offset (d : Direction) : Z * Z :=
  match d with
  | up => (0, 1) | down => (0, -1) | left => (-1, 0) | right => (1, 0)
  | diagonal_up_right => (1, 1) | diagonal_down_right => (1, -1)
  | diagonal_up_left => (-1, 1) | diagonal_down_left => (-1, -1)
  end%Z.

(** The directions a piece that is not a knight steps in. *)
Definition steps_in (t : PieceType) (c : Color) (d : Direction) : bool :=
  match t, c with
  | Pawn, White =>
      match d with
      | up | diagonal_up_right | diagonal_up_left => true
      | _ => false
      end
  | Pawn, Black =>
      match d with
      | down | diagonal_down_right | diagonal_down_left => true
      | _ => false
      end
  | Bishop, _ => diagonal_in d
  | Rook, _ => negb (diagonal_in d)
  | Queen, _ | King, _ => true
  | Knight, _ => false
  end.

(** Coordinates with integer file and rank, and the test that they name a
    square. *)
Definition coordZ (file rank : Z) : string :=
  coord (Z.to_nat file) (Z.to_nat rank).
Definition on_boardZ (file rank : Z) : bool :=
  ((1 <=? file) && (file <=? 8) && (1 <=? rank) && (rank <=? 8))%Z.

(** The square [k] steps away from [(file, rank)] in direction [d]. *)
Definition ahead (d : Direction) (file rank : nat) (k : Z) : string :=
  coordZ (Z.of_nat file + k * (offset d).1) (Z.of_nat rank + k * (offset d).2).
Definition ahead_on_board (d : Direction) (file rank : nat) (k : Z) : bool :=
  on_boardZ (Z.of_nat file + k * (offset d).1)
    (Z.of_nat rank + k * (offset d).2).

(** The direction from one square to another, from the signs of the
    differences of files and of ranks. *)
Definition direction_between (file rank file' rank' : nat)
  : option Direction :=
  direction_of (Z.sgn (Z.of_nat file' - Z.of_nat file))
               (Z.sgn (Z.of_nat rank' - Z.of_nat rank)).

(** Whether the first call of the stepper on the way from [current] to
    [destination] returns the destination. *)
Definition lands (self : Piece) (current destination : string)
  : result bool :=
  match move_direction current destination with
  | Ok (Some d) =>
      (λ next, bool_decide (next = Some destination))
        <$> next_position self current d destination
  | Ok None => Ok false
  | Raise e => Raise e
  end.

(** The L of a knight: one file and two ranks, or two files and one rank. *)
Definition knight_shape (file rank file' rank' : nat) : bool :=
  let df := Z.abs (Z.of_nat file' - Z.of_nat file) in
  let dr := Z.abs (Z.of_nat rank' - Z.of_nat rank) in
  ((df =? 1) && (dr =? 2) || (df =? 2) && (dr =? 1))%Z.

(** The change of rank of one pawn step. *)
Definition pawn_step (c : Color) : Z :=
  match c with White => 1 | Black => -1 end.

(** What holds of the rosters in every state of a game, beyond
    [consistent]: a roster holds pieces of its player, in the order of the
    starting roster, each of them on the board at its position; the board
    is occupied on its own squares only; while the game is unfinished both
    players have a piece of every type, and once it is won the loser lacks
    a type. *)
Record in_play (g : ChessVar) : Prop := {
  in_play_consistent : consistent g;
  roster_owner : ∀ c p, p ∈ get_piece_list c g → get_owner p = c;
  roster_on_board :
    ∀ c p, p ∈ get_piece_list c g → ∃ sq, board_state g !! sq = Some p;
  position_occupant :
    ∀ p sq, position g !! p = Some sq → board_state g !! sq = Some p;
  occupied_key : ∀ sq p, board_state g !! sq = Some p → sq ∈ board_keys;
  roster_sublist :
    ∀ c, get_piece_list c g `sublist_of` (starting_pieces c).*1;
  types_present :
    game_state g = UNFINISHED →
    ∀ c t, ∃ p, p ∈ get_piece_list c g ∧ get_type p = t;
  loser_lacks_type :
    ∀ c, game_state g = won c →
         ∃ t, ∀ p, p ∈ get_piece_list (other_player c) g → get_type p ≠ t
}.

(** * Properties *)

(** ** [list.remove] *)

Lemma list_remove_elem_of x l :
  x ∈ l → ∃ l', list_remove x l = Ok l'.
Proof.
  induction l as [|y l IH]; intros Hx; [by apply elem_of_nil in Hx|].
  simpl. destruct (decide (x = y)) as [->|Hne]; [by eexists|].
  apply elem_of_cons in Hx as [?|Hx]; [done|].
  destruct (IH Hx) as [l' ->]. by eexists.
Qed.

Lemma list_remove_other x l l' y :
  list_remove x l = Ok l' → y ≠ x → y ∈ l' ↔ y ∈ l.
Proof.
  revert l'. induction l as [|z l IH]; intros l' Hrm Hy; [done|].
  simpl in Hrm. destruct (decide (x = z)) as [->|Hne].
  - simplify_eq. rewrite elem_of_cons. tauto.
  - destruct (list_remove x l) as [l0|] eqn:E; [|done].
    injection Hrm as <-. rewrite !elem_of_cons, (IH l0) by done. done.
Qed.

Lemma list_remove_subseteq x l l' y :
  list_remove x l = Ok l' → y ∈ l' → y ∈ l.
Proof.
  revert l'. induction l as [|z l IH]; intros l' Hrm Hy; [done|].
  simpl in Hrm. destruct (decide (x = z)) as [->|Hne].
  - simplify_eq. by apply list_elem_of_further.
  - destruct (list_remove x l) as [l0|] eqn:E; [|done].
    injection Hrm as <-. apply elem_of_cons in Hy as [->|Hy]; [apply list_elem_of_here|].
    apply list_elem_of_further. by eapply IH.
Qed.

Lemma list_remove_NoDup x l l' :
  NoDup l → list_remove x l = Ok l' → NoDup l' ∧ x ∉ l'.
Proof.
  revert l'. induction l as [|z l IH]; intros l' Hnd Hrm; [done|].
  apply NoDup_cons in Hnd as [Hz Hnd].
  simpl in Hrm. destruct (decide (x = z)) as [->|Hne].
  - by simplify_eq.
  - destruct (list_remove x l) as [l0|] eqn:E; [|done].
    injection Hrm as <-. destruct (IH l0 Hnd eq_refl) as [Hnd0 Hx]. split.
    + apply NoDup_cons. split; [|done].
      intros Hz0. apply Hz. by eapply list_remove_subseteq.
    + rewrite elem_of_cons. tauto.
Qed.

Lemma list_remove_Raise x l e : list_remove x l = Raise e → e = ValueError.
Proof.
  induction l as [|y l IH]; simpl; intros H; [by simplify_eq|].
  case_decide; [done|]. destruct (list_remove x l); [done|].
  apply IH. unfold fmap, result_fmap in H. congruence.
Qed.

(** ** Inversion of [move] and [make_move] *)

Lemma compare_chars_refl c : compare_chars c c = 0%Z.
Proof.
  unfold compare_chars, Ascii.ltb, Ascii.compare.
  by rewrite N.compare_refl, Ascii.eqb_refl.
Qed.

(** A move with a direction goes somewhere else. *)
Lemma move_direction_neq s d direction :
  move_direction s d = Ok (Some direction) → s ≠ d.
Proof.
  intros H ->. unfold move_direction in H.
  destruct (index d 0) as [c0|]; [|done].
  destruct (index d 1) as [c1|]; [|done].
  simpl in H. by rewrite !compare_chars_refl in H.
Qed.

(** *** Only built-in exceptions come out of [Piece.move] *)

Lemma bind_Raise {A B} (m : result A) (f : A → result B) e :
  m ≫= f = Raise e → m = Raise e ∨ ∃ a, m = Ok a ∧ f a = Raise e.
Proof.
  destruct m as [a|e0]; intros H.
  - right. exists a. by split.
  - left. unfold mbind, result_bind in H. congruence.
Qed.

Lemma fmap_Raise {A B} (m : result A) (f : A → B) e :
  f <$> m = Raise e → m = Raise e.
Proof.
  destruct m as [a|e0]; intros H; [done|].
  unfold fmap, result_fmap in H. congruence.
Qed.

Lemma index_python s i e : index s i = Raise e → python_exn e.
Proof. unfold index. case_match; intros; by simplify_eq. Qed.

Lemma int_of_char_python c e : int_of_char c = Raise e → python_exn e.
Proof. unfold int_of_char. case_match; intros; by simplify_eq. Qed.

Lemma get_board_position_python s e :
  get_board_position s = Raise e → python_exn e.
Proof. unfold get_board_position. case_decide; intros; by simplify_eq. Qed.

(** Peels the binds of a hypothesis [_ = Raise e] down to the primitive that
    raised. *)
Ltac raised H :=
  repeat first
    [ apply bind_Raise in H as [H|(? & ? & H)]
    | apply fmap_Raise in H
    | apply index_python in H
    | apply int_of_char_python in H
    | apply get_board_position_python in H
    | done
    | progress simplify_eq
    | progress cbv zeta in H
    | match type of H with
      | match ?x with _ => _ end = Raise _ => destruct x eqn:?
      | (if ?x then _ else _) = Raise _ => destruct x eqn:?
      end ].

Lemma step_both_python self s h dh v dv e :
  step_both self s h dh v dv = Raise e → python_exn e.
Proof. unfold step_both. intros H. raised H; done. Qed.

Lemma next_position_python self current direction destination e :
  next_position self current direction destination = Raise e → python_exn e.
Proof.
  unfold next_position, step_knight, step_diagonal, step_vertical,
    step_horizontal.
  intros H.
  destruct (get_type self), (get_owner self), direction;
    raised H; done.
Qed.

Lemma next_position_builtin self current direction destination e :
  next_position self current direction destination = Raise e → builtin e.
Proof. by intros [? _]%next_position_python. Qed.

Lemma index_builtin s i e : index s i = Raise e → builtin e.
Proof. by intros [? _]%index_python. Qed.

Lemma move_direction_builtin s d e :
  move_direction s d = Raise e → builtin e.
Proof.
  unfold move_direction. intros H.
  cut (python_exn e); [by intros []|]. raised H; done.
Qed.

(** Reduces a goal about a test that starts with a call of the stepper to
    the goals about what follows the call. *)
Ltac after_step H :=
  apply bind_Raise in H as [H|(next & _ & H)];
  [by eapply next_position_builtin|].

Lemma pawn_first_move_builtin loops self current direction destination g e :
  pawn_first_move loops self current direction destination g = Raise e →
  builtin e.
Proof.
  revert current. induction loops as [|loop loops IH]; intros current H;
    [done|].
  simpl in H. after_step H.
  repeat case_match; try done. by eapply IH.
Qed.

Lemma slide_builtin fuel self current direction destination g e :
  slide fuel self current direction destination g = Raise e → builtin e.
Proof.
  revert current. induction fuel as [|fuel IH]; intros current H.
  { simpl in H. by simplify_eq. }
  simpl in H. after_step H.
  repeat case_match; try done. by eapply IH.
Qed.

Lemma legal_move_test_builtin self start direction destination g e :
  legal_move_test self start direction destination g = Raise e → builtin e.
Proof.
  unfold legal_move_test. intros H.
  destruct (get_type self).
  - apply bind_Raise in H as [H|(s1 & _ & H)]; [by eapply index_builtin|].
    repeat case_match.
    + unfold pawn_diagonal in H. after_step H. by repeat case_match.
    + by eapply pawn_first_move_builtin.
    + unfold pawn_later_move in H. after_step H. by repeat case_match.
  - unfold single_step in H. after_step H. by repeat case_match.
  - by eapply slide_builtin.
  - by eapply slide_builtin.
  - by eapply slide_builtin.
  - unfold single_step in H. after_step H. by repeat case_match.
Qed.

(** [move] either leaves the state alone (a built-in exception raised by the
    tests, or [False]) or passes the tests and runs [execute_move]. *)
Lemma move_inv self destination g r g' :
  move self destination g = (r, g') →
  (g' = g ∧ (r = Ok RFalse ∨ ∃ e, r = Raise e ∧ builtin e))
  ∨ (∃ start direction,
       position g !! self = Some start ∧
       move_direction start destination = Ok (Some direction) ∧
       legal_move_test self start direction destination g = Ok true ∧
       execute_move self start destination g = (r, g')).
Proof.
  unfold move. intros H.
  destruct (position g !! self) as [start|]; [|left; simplify_eq].
  2:{ split; [done|]. right. by eexists. }
  destruct (move_direction start destination) as [[direction|]|e] eqn:Hd.
  - destruct (legal_move_test self start direction destination g)
      as [[]|e] eqn:Ht.
    + right. by exists start, direction.
    + left. simplify_eq. auto.
    + left. simplify_eq. split; [done|]. right. eexists. split; [done|].
      by eapply legal_move_test_builtin.
  - left. simplify_eq. auto.
  - left. simplify_eq. split; [done|]. right. eexists. split; [done|].
    by eapply move_direction_builtin.
Qed.

(** What [execute_move] does to the state, by cases on the destination. *)
Lemma execute_move_inv self start destination g r g' :
  start ≠ destination →
  execute_move self start destination g = (r, g') →
  game_state g' = game_state g ∧ turn g' = turn g ∧
  board_state g' = <[destination := self]> (delete start (board_state g)) ∧
  match board_state g !! destination with
  | None =>
      r = Ok RTrue ∧
      position g' = <[self := destination]> (position g) ∧
      (∀ c, get_piece_list c g' = get_piece_list c g)
  | Some q =>
      position g' = delete q (<[self := destination]> (position g)) ∧
      match list_remove q (get_piece_list (get_owner q) g) with
      | Ok l =>
          r = Ok (RPiece q) ∧
          get_piece_list (get_owner q) g' = l ∧
          get_piece_list (other_player (get_owner q)) g' =
            get_piece_list (other_player (get_owner q)) g
      | Raise e =>
          r = Raise ValueError ∧ e = ValueError ∧
          (∀ c, get_piece_list c g' = get_piece_list c g)
      end
  end.
Proof.
  intros Hne. unfold execute_move.
  rewrite lookup_delete_ne by done.
  destruct (board_state g !! destination) as [q|].
  - assert (∀ b p, get_piece_list (get_owner q) (set_board_position b p g)
                   = get_piece_list (get_owner q) g) as Hroster
      by (intros; by destruct (get_owner q)).
    rewrite Hroster.
    destruct (list_remove q (get_piece_list (get_owner q) g)) as [l|e] eqn:Hrm;
      intros H; simplify_eq.
    + destruct (get_owner q); simpl; by repeat split.
    + apply list_remove_Raise in Hrm as ->. simpl. by repeat split.
  - intros H. simplify_eq. simpl. by repeat split.
Qed.

(** [execute_move] never returns [False], and raises nothing but the
    [ValueError] of [list.remove]. *)
Lemma execute_move_result self start destination g r g' :
  start ≠ destination →
  execute_move self start destination g = (r, g') →
  r = Ok RTrue ∨ (∃ q, r = Ok (RPiece q)) ∨ r = Raise ValueError.
Proof.
  intros Hne H. apply execute_move_inv in H as (_ & _ & _ & H); [|done].
  destruct (board_state g !! destination) as [q|]; [|naive_solver].
  destruct H as [_ H]. destruct (list_remove q _); naive_solver.
Qed.

(** When [move] returns [False] or raises, and the exception is not the
    [ValueError] of a roster that lacks the captured piece, the state is
    the one it was called in. *)
Lemma move_rejected_state self destination g r g' :
  move self destination g = (r, g') →
  r = Ok RFalse ∨ (∃ e, r = Raise e ∧ e ≠ ValueError) →
  g' = g.
Proof.
  intros H Hr. apply move_inv in H as [[-> _]|H]; [done|].
  destruct H as (start & direction & _ & Hd & _ & Hx).
  apply move_direction_neq in Hd.
  apply execute_move_result in Hx; [|done]. naive_solver.
Qed.

Lemma move_Raise_builtin self destination g e g' :
  move self destination g = (Raise e, g') → builtin e.
Proof.
  intros H. apply move_inv in H as [[_ H]|H].
  - destruct H as [|(e' & ? & ?)]; by simplify_eq.
  - destruct H as (start & direction & _ & Hd & _ & Hx).
    apply move_direction_neq in Hd.
    apply execute_move_result in Hx; [|done].
    destruct Hx as [|[[q ?]|]]; by simplify_eq.
Qed.

(** What an accepted [make_move] went through. *)
Lemma make_move_Ok_inv string1 string2 g v g' :
  make_move string1 string2 g = (Ok v, g') →
  v = RTrue ∧ game_state g = UNFINISHED ∧
  string1 ∈ board_keys ∧ string2 ∈ board_keys ∧
  ∃ self mv g1,
    board_state g !! string1 = Some self ∧ get_owner self = turn g ∧
    move self string2 g = (Ok mv, g1) ∧ mv ≠ RFalse ∧
    after_move mv g1 = (Ok RTrue, g').
Proof.
  unfold make_move, get_position_state, get_board_position. intros H.
  case_bool_decide as Hs; [done|].
  destruct (outside_board string1 string2) as [[]|]; try done.
  destruct (decide (string1 ∈ board_keys)) as [Hk1|]; [|done]. simpl in H.
  destruct (board_state g !! string1) as [self|] eqn:Hself; [|done].
  case_bool_decide as Ho; [done|].
  destruct (decide (string2 ∈ board_keys)) as [Hk2|]; [|done].
  destruct (move self string2 g) as [[mv|e] g1] eqn:Hm; [|done].
  assert (v = RTrue ∧ mv ≠ RFalse) as [-> Hmv].
  { destruct mv; simpl in H; by simplify_eq. }
  repeat split; try done.
  - destruct (game_state g); naive_solver.
  - by exists self, mv, g1.
Qed.

(** ** Rejected moves *)

(** C3: when [make_move] raises [GameOverError], [MoveOutOfTurnError] or
    [IllegalMoveError], the board, the pieces' positions, both rosters, the
    turn and the game state are what they were before the call, whatever
    state and whatever two strings it was called with. *)
Theorem make_move_rejected_unchanged string1 string2 g e g' :
  make_move string1 string2 g = (Raise e, g') →
  e = GameOverError ∨ e = MoveOutOfTurnError ∨ e = IllegalMoveError →
  g' = g.
Proof.
  unfold make_move. intros H He.
  case_bool_decide; [by simplify_eq|].
  destruct (outside_board string1 string2) as [[]|]; try by simplify_eq.
  destruct (get_position_state string1 g) as [[self|]|];
    try by simplify_eq.
  case_bool_decide; [by simplify_eq|].
  destruct (get_board_position string2) as [destination|];
    [|by simplify_eq].
  destruct (move self destination g) as [[mv|e0] g1] eqn:Hm.
  - destruct mv; simpl in H; simplify_eq.
    eapply move_rejected_state; [done|]. by left.
  - simplify_eq. apply move_Raise_builtin in Hm.
    unfold builtin in Hm. naive_solver.
Qed.

Lemma make_move_rejected_unchanged_witness :
  (make_move "e2" "e5" new_game).2 = new_game.
Proof.
  apply (make_move_rejected_unchanged "e2" "e5" new_game IllegalMoveError).
  - vm_compute. reflexivity.
  - right. right. reflexivity.
Defined.

(** ** The order of the checks of [make_move] *)

Lemma leb_negb_ltb a b : (a <=? b)%char = negb (b <? a)%char.
Proof.
  unfold Ascii.leb, Ascii.ltb, Ascii.compare.
  rewrite (N.compare_antisym (N_of_ascii a) (N_of_ascii b)).
  by destruct (N_of_ascii a ?= N_of_ascii b)%N.
Qed.

(** On strings of two characters or more the test looks at the first two
    characters of each and nothing else. *)
Lemma outside_board_chars f1 r1 t1 f2 r2 t2 :
  outside_board (String f1 (String r1 t1)) (String f2 (String r2 t2))
  = Ok (negb (on_board f1 r1 && on_board f2 r2)).
Proof.
  unfold outside_board, on_board, between, char_lt, char_gt, por, index.
  simpl. rewrite !leb_negb_ltb.
  destruct (f1 <? "a")%char, ("h" <? f1)%char, (f2 <? "a")%char,
    ("h" <? f2)%char, (r1 <? "1")%char, ("8" <? r1)%char,
    (r2 <? "1")%char, ("8" <? r2)%char; reflexivity.
Qed.

Lemma board_keys_on_board s :
  s ∈ board_keys → ∃ f r, s = str2 f r ∧ on_board f r = true.
Proof.
  unfold board_keys. intros H.
  repeat (apply elem_of_cons in H as [->|H]; [by eexists _, _|]).
  by apply elem_of_nil in H.
Qed.

Lemma outside_board_keys string1 string2 :
  string1 ∈ board_keys → string2 ∈ board_keys →
  outside_board string1 string2 = Ok false.
Proof.
  intros (f1 & r1 & -> & H1)%board_keys_on_board
         (f2 & r2 & -> & H2)%board_keys_on_board.
  unfold str2. by rewrite outside_board_chars, H1, H2.
Qed.

(** C7: [make_move] checks, in this order: the game is over
    ([GameOverError], whatever the arguments are); one of the two
    coordinates is off the board ([IllegalMoveError]); the origin is empty
    ([IllegalMoveError]); the piece on the origin is not the turn holder's
    ([MoveOutOfTurnError]); and only then does it call [Piece.move]. *)
Theorem make_move_validation_order string1 string2 g :
  (game_state g ≠ UNFINISHED →
     make_move string1 string2 g = (Raise GameOverError, g)) ∧
  (game_state g = UNFINISHED →
     (∀ f1 r1 t1 f2 r2 t2,
        string1 = String f1 (String r1 t1) →
        string2 = String f2 (String r2 t2) →
        on_board f1 r1 && on_board f2 r2 = false →
        make_move string1 string2 g = (Raise IllegalMoveError, g)) ∧
     (string1 ∈ board_keys → string2 ∈ board_keys →
        (board_state g !! string1 = None →
           make_move string1 string2 g = (Raise IllegalMoveError, g)) ∧
        (∀ p, board_state g !! string1 = Some p →
           (get_owner p ≠ turn g →
              make_move string1 string2 g = (Raise MoveOutOfTurnError, g)) ∧
           (get_owner p = turn g →
              make_move string1 string2 g =
                match move p string2 g with
                | (Raise e, g') => (Raise e, g')
                | (Ok current_move, g') => after_move current_move g'
                end)))).
Proof.
  split; [|intros Hs; split].
  - intros Hs. unfold make_move. rewrite bool_decide_eq_true_2; [done|].
    destruct (game_state g); auto. done.
  - intros f1 r1 t1 f2 r2 t2 -> -> Hb. unfold make_move.
    rewrite bool_decide_eq_false_2 by (rewrite Hs; naive_solver).
    by rewrite outside_board_chars, Hb.
  - intros Hk1 Hk2. unfold make_move, get_position_state, get_board_position.
    rewrite bool_decide_eq_false_2 by (rewrite Hs; naive_solver).
    rewrite outside_board_keys by done.
    rewrite !decide_True by done. simpl. split.
    + by intros ->.
    + intros p ->. split; intros Ho.
      * by rewrite bool_decide_eq_true_2.
      * by rewrite bool_decide_eq_false_2 by (by intros ?).
Qed.

Lemma make_move_validation_order_witness :
  make_move "e7" "e5" new_game = (Raise MoveOutOfTurnError, new_game).
Proof.
  destruct (make_move_validation_order "e7" "e5" new_game) as [_ H].
  destruct (H eq_refl) as [_ H'].
  destruct H' as [_ H''];
    [apply (bool_decide_unpack _); vm_compute; exact I ..|].
  apply (H'' (mkPiece Black Pawn 4)); [vm_compute; reflexivity | discriminate].
Defined.

(** ** The invariant *)

Lemma other_player_neq c c' : c' ≠ c → c' = other_player c.
Proof. by destruct c, c'. Qed.

Lemma after_move_fields mv g r g' :
  after_move mv g = (r, g') →
  board_state g' = board_state g ∧ position g' = position g ∧
  ∀ c, get_piece_list c g' = get_piece_list c g.
Proof.
  destruct mv; simpl; intros H; simplify_eq; simpl; repeat split;
    by intros [].
Qed.

Lemma after_move_consistent mv g r g' :
  after_move mv g = (r, g') → consistent g → consistent g'.
Proof.
  intros (Hb & Hp & Hl)%after_move_fields [H1 H2 H3].
  split; intros *; rewrite ?Hb, ?Hp, ?Hl; eauto.
Qed.

(** On a consistent state, with the moving piece standing on the square its
    position names, the mutations of [execute_move] go through and keep
    the state consistent. *)
Lemma execute_move_consistent self start destination g r g' :
  consistent g →
  board_state g !! start = Some self →
  start ≠ destination →
  execute_move self start destination g = (r, g') →
  consistent g' ∧ ∃ mv, r = Ok mv.
Proof.
  intros [H1 H2 H3] Hself Hne Hx.
  apply execute_move_inv in Hx as (_ & _ & Hb & Hx); [|done].
  pose proof (H1 _ _ Hself) as Hpself.
  destruct (board_state g !! destination) as [q|] eqn:Hq.
  - destruct Hx as [Hp Hx].
    pose proof (H1 _ _ Hq) as Hpq.
    assert (q ≠ self) as Hqs by (intros ->; congruence).
    destruct (list_remove_elem_of q _ (H2 _ _ Hq)) as [l Hl].
    rewrite Hl in Hx. destruct Hx as (-> & Hl1 & Hl2).
    split; [|by eexists]. split.
    + intros sq p. rewrite Hb, Hp.
      destruct (decide (sq = destination)) as [->|Hsq].
      * rewrite lookup_insert_eq. intros [= <-].
        by rewrite lookup_delete_ne, lookup_insert_eq.
      * rewrite lookup_insert_ne by done.
        intros [Hs Hsq']%lookup_delete_Some.
        pose proof (H1 _ _ Hsq') as Hpp.
        rewrite lookup_delete_ne by (intros ->; congruence).
        rewrite lookup_insert_ne by (intros ->; congruence). done.
    + intros sq p. rewrite Hb. intros Hsq.
      assert (p ≠ q ∧ p ∈ get_piece_list (get_owner p) g) as [Hpq' Hin].
      { destruct (decide (sq = destination)) as [->|Hsq'].
        - rewrite lookup_insert_eq in Hsq. simplify_eq. eauto.
        - rewrite lookup_insert_ne in Hsq by done.
          apply lookup_delete_Some in Hsq as [Hs Hsq].
          split; [intros ->; pose proof (H1 _ _ Hsq); congruence | eauto]. }
      destruct (decide (get_owner p = get_owner q)) as [Ho|Ho].
      * rewrite Ho, Hl1. apply (list_remove_other _ _ _ _ Hl); [done|].
        by rewrite <-Ho.
      * rewrite (other_player_neq _ _ Ho), Hl2.
        by rewrite <-(other_player_neq _ _ Ho).
    + intros c. destruct (decide (c = get_owner q)) as [->|Ho].
      * rewrite Hl1. by eapply list_remove_NoDup.
      * rewrite (other_player_neq _ _ Ho), Hl2. apply H3.
  - destruct Hx as (-> & Hp & Hl). split; [|by eexists]. split.
    + intros sq p. rewrite Hb, Hp.
      destruct (decide (sq = destination)) as [->|Hsq].
      * rewrite lookup_insert_eq. intros [= <-]. by rewrite lookup_insert_eq.
      * rewrite lookup_insert_ne by done.
        intros [Hs Hsq']%lookup_delete_Some.
        pose proof (H1 _ _ Hsq') as Hpp.
        rewrite lookup_insert_ne by (intros ->; congruence). done.
    + intros sq p. rewrite Hb, Hl.
      destruct (decide (sq = destination)) as [->|Hsq].
      * rewrite lookup_insert_eq. intros [= <-]. eauto.
      * rewrite lookup_insert_ne by done.
        intros [Hs Hsq']%lookup_delete_Some. eauto.
    + intros c. rewrite Hl. apply H3.
Qed.

Lemma new_game_consistent : consistent new_game.
Proof.
  split.
  - apply map_Forall_lookup. apply (bool_decide_unpack _).
    vm_compute. exact I.
  - apply map_Forall_lookup. apply (bool_decide_unpack _).
    vm_compute. exact I.
  - intros []; apply (bool_decide_unpack _); vm_compute; exact I.
Qed.

Lemma set_turn_consistent turn_string g :
  consistent g → consistent (set_turn turn_string g).
Proof.
  intros [H1 H2 H3]. unfold set_turn.
  case_bool_decide; split; try exact H1.
  all: try (intros sq p Hsq; specialize (H2 sq p Hsq);
            by destruct (get_owner p)).
  all: intros c; specialize (H3 c); by destruct c.
Qed.

(** The path of an accepted [make_move]: the piece on the origin belongs to
    the turn holder, passes the tests and is moved by [execute_move]. *)
Lemma make_move_Ok_executed string1 string2 g v g' :
  consistent g →
  make_move string1 string2 g = (Ok v, g') →
  game_state g = UNFINISHED ∧
  ∃ self direction mv g1,
    board_state g !! string1 = Some self ∧ get_owner self = turn g ∧
    string1 ≠ string2 ∧
    move_direction string1 string2 = Ok (Some direction) ∧
    legal_move_test self string1 direction string2 g = Ok true ∧
    execute_move self string1 string2 g = (Ok mv, g1) ∧
    after_move mv g1 = (Ok RTrue, g').
Proof.
  intros Hc (_ & Hs & _ & _ & self & mv & g1 & Hself & Ho & Hm & Hmv & Ha)
    %make_move_Ok_inv.
  split; [done|].
  apply move_inv in Hm as [[_ Hm]|Hm].
  { destruct Hm as [|(? & ? & ?)]; by simplify_eq. }
  destruct Hm as (start & direction & Hp & Hd & Ht & Hx).
  rewrite (occupant_position g Hc _ _ Hself) in Hp. simplify_eq.
  exists self, direction, mv, g1. repeat split; try done.
  by eapply move_direction_neq.
Qed.

Lemma make_move_consistent string1 string2 g :
  consistent g → consistent (make_move string1 string2 g).2.
Proof.
  intros Hc.
  destruct (make_move string1 string2 g) as [[v|e] g'] eqn:Hmm; simpl.
  - apply make_move_Ok_executed in Hmm as (_ & self & direction & mv & g1 &
      Hself & _ & Hne & _ & _ & Hx & Ha); [|done].
    eapply after_move_consistent; [done|].
    by eapply execute_move_consistent.
  - revert Hmm. unfold make_move.
    case_bool_decide; [by intros; simplify_eq|].
    destruct (outside_board string1 string2) as [[]|];
      try by (intros; simplify_eq).
    unfold get_position_state, get_board_position.
    destruct (decide (string1 ∈ board_keys)); simpl;
      [|by intros; simplify_eq].
    destruct (board_state g !! string1) as [self|] eqn:Hself;
      [|by intros; simplify_eq].
    case_bool_decide; [by intros; simplify_eq|].
    destruct (decide (string2 ∈ board_keys)); [|by intros; simplify_eq].
    destruct (move self string2 g) as [[mv|err] g1] eqn:Hm.
    + intros Ha. apply move_inv in Hm as [[-> _]|Hm].
      { destruct mv; simpl in Ha; by simplify_eq. }
      destruct Hm as (start & direction & Hp & Hd & _ & Hx).
      rewrite (occupant_position g Hc _ _ Hself) in Hp. simplify_eq.
      eapply after_move_consistent; [done|].
      eapply execute_move_consistent; [done..| |done].
      by eapply move_direction_neq.
    + intros ?. simplify_eq.
      apply move_inv in Hm as [[-> _]|Hm]; [done|].
      destruct Hm as (start & direction & Hp & Hd & _ & Hx).
      rewrite (occupant_position g Hc _ _ Hself) in Hp. simplify_eq.
      eapply execute_move_consistent; [done..| |done].
      by eapply move_direction_neq.
Qed.

Lemma reachable_consistent g : reachable g → consistent g.
Proof.
  induction 1; auto using new_game_consistent, make_move_consistent,
    set_turn_consistent.
Qed.

(** ** Captures *)

Lemma bind_Ok {A B} (m : result A) (f : A → result B) b :
  m ≫= f = Ok b → ∃ a, m = Ok a ∧ f a = Ok b.
Proof. destruct m as [a|e]; intros H; [by exists a | done]. Qed.

(** Opens a hypothesis [H : (next ← next_position ..; ..) = Ok b] into the
    square the stepper returned and the tests made on it. *)
Ltac stepped H next Hnext :=
  apply bind_Ok in H as ([next|] & Hnext & H); [|done].

Lemma slide_capture fuel self current direction destination g q :
  slide fuel self current direction destination g = Ok true →
  board_state g !! destination = Some q →
  get_owner q ≠ get_owner self.
Proof.
  revert current. induction fuel as [|fuel IH]; intros current H Hq;
    [done|].
  simpl in H. stepped H next Hnext.
  destruct (board_state g !! next) as [other|] eqn:Ho.
  - repeat case_bool_decide; simplify_eq. congruence.
  - case_bool_decide; [by eapply IH|]. congruence.
Qed.

(** A move that passes the tests onto an occupied destination takes a piece
    of the other player. *)
Lemma legal_move_test_capture self start direction destination g q :
  legal_move_test self start direction destination g = Ok true →
  board_state g !! destination = Some q →
  get_owner q ≠ get_owner self.
Proof.
  unfold legal_move_test. intros H Hq.
  assert (∀ current, single_step self current direction destination g
                     = Ok true → get_owner q ≠ get_owner self) as Hsingle.
  { intros current Hs. unfold single_step in Hs. stepped Hs next Hnext.
    case_bool_decide; [done|].
    destruct (board_state g !! next) as [other|] eqn:Ho; [|congruence].
    case_bool_decide; simplify_eq. congruence. }
  destruct (get_type self); eauto using slide_capture.
  apply bind_Ok in H as (s1 & _ & H).
  destruct (_ || _).
  - destruct (diagonal_in direction).
    + unfold pawn_diagonal in H. stepped H next Hnext.
      destruct (board_state g !! next) as [other|] eqn:Ho; [|done].
      repeat case_bool_decide; simplify_eq. congruence.
    + simpl in H. stepped H next Hnext.
      destruct (board_state g !! next) as [other|] eqn:Ho; [done|].
      case_bool_decide; [|congruence].
      simpl in H. stepped H next2 Hnext2.
      destruct (board_state g !! next2) as [other|] eqn:Ho2; [done|].
      case_bool_decide; [done|congruence].
  - unfold pawn_later_move in H. stepped H next Hnext.
    destruct (diagonal_in direction);
      destruct (board_state g !! next) as [other|] eqn:Ho; try done.
    + repeat case_bool_decide; simplify_eq. congruence.
    + case_bool_decide; [done|congruence].
Qed.

Lemma last_piece_spec t l :
  last_piece t l = true ↔ ∀ p, p ∈ l → get_type p ≠ t.
Proof.
  unfold last_piece. rewrite forallb_forall. split.
  - intros H p Hp Ht. apply list_elem_of_In, H, bool_decide_eq_true in Hp.
    by apply Hp.
  - intros H p Hp. apply bool_decide_eq_true. intros Ht.
    by eapply H; [apply list_elem_of_In|].
Qed.

(** An accepted move onto an occupied square, on a consistent state: the
    occupant is the opponent's, it leaves its owner's roster and loses its
    position, the roster is searched after that, and the turn passes. *)
Lemma make_move_capture string1 string2 g v g' q :
  consistent g →
  make_move string1 string2 g = (Ok v, g') →
  board_state g !! string2 = Some q →
  get_owner q = other_player (turn g) ∧
  list_remove q (get_piece_list (get_owner q) g)
    = Ok (get_piece_list (get_owner q) g') ∧
  turn g' = other_player (turn g) ∧
  game_state g' =
    (if last_piece (get_type q) (get_piece_list (get_owner q) g')
     then won (turn g) else UNFINISHED) ∧
  position g' !! q = None.
Proof.
  intros Hc Hmm Hq.
  apply make_move_Ok_executed in Hmm as (Hs & self & direction & mv & g1 &
    Hself & Ho & Hne & _ & Ht & Hx & Ha); [|done].
  pose proof (legal_move_test_capture _ _ _ _ _ _ Ht Hq) as Hoq.
  apply execute_move_inv in Hx as (Hs1 & Ht1 & _ & Hx); [|done].
  rewrite Hq in Hx. destruct Hx as [Hp Hx].
  destruct (list_remove q _) as [l|e] eqn:Hl; [|by destruct Hx].
  destruct Hx as (? & Hl1 & _). simplify_eq.
  simpl in Ha. simplify_eq. simpl.
  rewrite Hs1, Ht1, Hs, Hp, lookup_delete_eq.
  assert (get_piece_list (get_owner q)
            (set_game_state_turn
               (if last_piece (get_type q) (get_piece_list (get_owner q) g1)
                then won (turn g) else UNFINISHED)
               (other_player (turn g)) g1)
          = get_piece_list (get_owner q) g1) as -> by by destruct (get_owner q).
  repeat split; try done.
  apply other_player_neq. congruence.
Qed.

(** C4: on a capture the roster that is searched for pieces of the captured
    type is the opponent's roster with the captured piece already removed
    from it, and the mover wins exactly when no piece of that type is left
    in it. *)
Theorem win_counts_survivors string1 string2 g v g' q :
  reachable g →
  make_move string1 string2 g = (Ok v, g') →
  board_state g !! string2 = Some q →
  let roster := get_piece_list (other_player (turn g)) in
  (∀ p, p ∈ roster g' ↔ p ∈ roster g ∧ p ≠ q) ∧
  q ∈ roster g ∧
  (game_state g' = won (turn g) ↔
   ∀ p, p ∈ roster g' → get_type p ≠ get_type q).
Proof.
  intros Hc%reachable_consistent Hmm Hq roster. unfold roster.
  pose proof (occupant_in_roster g Hc _ _ Hq) as Hin.
  pose proof (roster_NoDup g Hc (get_owner q)) as Hnd.
  apply make_move_capture with (q := q) in Hmm
    as (Ho & Hl & _ & Hs & _); [|done..].
  rewrite <-Ho.
  destruct (list_remove_NoDup _ _ _ Hnd Hl) as [_ Hq'].
  repeat split; try done.
  - by eapply list_remove_subseteq.
  - by intros ->.
  - intros [Hp Hpq]. by apply (list_remove_other _ _ _ _ Hl).
  - rewrite Hs. destruct (last_piece _ _) eqn:Hlast.
    + intros _. by apply last_piece_spec.
    + by destruct (turn g).
  - intros Hlast%last_piece_spec. by rewrite Hs, Hlast.
Qed.

Lemma reachable_play moves g : reachable g → reachable (play moves g).
Proof.
  revert g. induction moves as [|[s1 s2] moves IH]; intros g Hg; [done|].
  apply IH. simpl. by apply reachable_make_move.
Qed.

Lemma win_counts_survivors_witness :
  let g := play queen_hunt new_game in
  let g' := (make_move "c3" "d5" g).2 in
  game_state g' = WHITE_WON ↔
  ∀ p, p ∈ black_piece_list g' → get_type p ≠ Queen.
Proof.
  intros g g'.
  refine (proj2 (proj2 (win_counts_survivors "c3" "d5" g RTrue g'
                  (mkPiece Black Queen 14) _ _ _))).
  - apply reachable_play, reachable_new_game.
  - vm_compute. reflexivity.
  - vm_compute. reflexivity.
Defined.

(** C1, as the code has it: after an accepted capture the turn passes to the
    other player in every case; the game state becomes the mover's win state
    when the captured piece was the last of its type in its owner's roster,
    and stays [UNFINISHED] otherwise. *)
Theorem capture_sets_state_and_passes_turn string1 string2 g v g' q :
  reachable g →
  make_move string1 string2 g = (Ok v, g') →
  board_state g !! string2 = Some q →
  let last_of_type :=
    ∀ p, p ∈ get_piece_list (get_owner q) g →
         get_type p = get_type q → p = q in
  turn g' = other_player (turn g) ∧
  (last_of_type → game_state g' = won (turn g)) ∧
  (¬ last_of_type → game_state g' = UNFINISHED).
Proof.
  intros Hc%reachable_consistent Hmm Hq last_of_type.
  pose proof (roster_NoDup g Hc (get_owner q)) as Hnd.
  apply make_move_capture with (q := q) in Hmm
    as (_ & Hl & Ht & Hs & _); [|done..].
  split; [done|]. rewrite Hs.
  destruct (last_piece _ _) eqn:Hlast; split; try done.
  - intros Hn. destruct Hn. intros p Hp Hty.
    destruct (decide (p = q)) as [|Hpq]; [done|].
    destruct (proj1 (last_piece_spec _ _) Hlast p); [|done].
    by apply (list_remove_other _ _ _ _ Hl).
  - intros H. apply not_true_iff_false in Hlast. destruct Hlast.
    apply last_piece_spec. intros p Hp Hty.
    destruct (list_remove_NoDup _ _ _ Hnd Hl) as [_ Hq'].
    apply Hq'. assert (p = q) as <-; [|done].
    apply H; [|done]. by eapply list_remove_subseteq.
Qed.

Lemma capture_sets_state_and_passes_turn_witness :
  let g := play queen_hunt new_game in
  let g' := (make_move "c3" "d5" g).2 in
  turn g' = Black.
Proof.
  intros g g'.
  refine (proj1 (capture_sets_state_and_passes_turn "c3" "d5" g RTrue g'
                   (mkPiece Black Queen 14) _ _ _)).
  - apply reachable_play, reachable_new_game.
  - vm_compute. reflexivity.
  - vm_compute. reflexivity.
Defined.

(** C1 as the specification words it fails: White's knight takes Black's
    only queen, the game is won, and the turn has passed to Black all the
    same. *)
Lemma winning_capture_flips_turn :
  let g := play queen_hunt new_game in
  ∃ q g',
    make_move "c3" "d5" g = (Ok RTrue, g') ∧
    board_state g !! "d5" = Some q ∧
    (∀ p, p ∈ get_piece_list (get_owner q) g →
          get_type p = get_type q → p = q) ∧
    game_state g' = WHITE_WON ∧
    turn g = White ∧
    ¬ (game_state g' = won (turn g) ∧ turn g' = turn g).
Proof.
  intros g. exists (mkPiece Black Queen 14), (make_move "c3" "d5" g).2.
  split; [vm_compute; reflexivity|].
  split; [vm_compute; reflexivity|].
  split.
  { refine (proj1 (Forall_forall _ _) _).
    apply (bool_decide_unpack _). vm_compute. exact I. }
  split; [vm_compute; reflexivity|].
  split; [vm_compute; reflexivity|].
  intros [_ H]. vm_compute in H. discriminate.
Qed.

(** ** Squares and pieces point at each other *)

(** C9: after an accepted move from a reachable state, the piece on any
    square has that square as its position, and the piece that stood on the
    destination has no position any more. *)
Theorem occupant_points_back string1 string2 g v g' :
  reachable g →
  make_move string1 string2 g = (Ok v, g') →
  (∀ sq p, board_state g' !! sq = Some p → position g' !! p = Some sq) ∧
  (∀ q, board_state g !! string2 = Some q → position g' !! q = None).
Proof.
  intros Hc%reachable_consistent Hmm. split.
  - apply occupant_position.
    change g' with (Ok v, g').2. rewrite <-Hmm.
    by apply make_move_consistent.
  - intros q Hq.
    by destruct (make_move_capture _ _ _ _ _ q Hc Hmm Hq)
      as (_ & _ & _ & _ & ?).
Qed.

Lemma occupant_points_back_witness :
  let g := play pawn_trade new_game in
  let g' := (make_move "e4" "d5" g).2 in
  position g' !! mkPiece Black Pawn 3 = None.
Proof.
  intros g g'.
  refine (proj2 (occupant_points_back "e4" "d5" g RTrue g' _ _) _ _).
  - apply reachable_play, reachable_new_game.
  - vm_compute. reflexivity.
  - vm_compute. reflexivity.
Defined.

(** ** What [make_move] returns *)

(** Every accepted [make_move] returns [True]. *)
Lemma make_move_returns_True string1 string2 g v g' :
  make_move string1 string2 g = (Ok v, g') → v = RTrue.
Proof. by intros (? & _)%make_move_Ok_inv. Qed.

(** C2: the documented return value of a capturing move is the captured
    piece, yet the white pawn taking the black pawn on d5 gets the same
    [True] as the plain pawn move that opens the game. *)
Theorem capture_returns_True :
  let g := play pawn_trade new_game in
  board_state g !! "d5" = Some (mkPiece Black Pawn 3) ∧
  (move (mkPiece White Pawn 4) "d5" g).1 = Ok (RPiece (mkPiece Black Pawn 3)) ∧
  (make_move "e4" "d5" g).1 = Ok RTrue ∧
  (make_move "e2" "e4" new_game).1 = Ok RTrue.
Proof. vm_compute. by repeat split. Qed.

(** ** Malformed coordinates *)

(** C8: strings that are not a file letter followed by a rank digit are not
    all turned into one of the module's exceptions: a string with a third
    character gets to the dictionary lookup and raises [KeyError], an empty
    or one-character string raises [IndexError]. *)
Theorem malformed_coordinates_raise_builtin :
  make_move "e2" "e4x" new_game = (Raise KeyError, new_game) ∧
  make_move "e2x" "e4" new_game = (Raise KeyError, new_game) ∧
  make_move "" "e4" new_game = (Raise IndexError, new_game) ∧
  make_move "e2" "e" new_game = (Raise IndexError, new_game).
Proof. repeat split; vm_compute; reflexivity. Qed.

(** ** [set_turn] *)

(** C10: [set_turn] gives the turn to White exactly when its argument is the
    string ["White"] and to Black on every other string; it raises nothing
    and touches nothing else. *)
Theorem set_turn_White_iff turn_string g :
  (turn (set_turn turn_string g) = White ↔ turn_string = "White") ∧
  (turn (set_turn turn_string g) = Black ↔ turn_string ≠ "White") ∧
  board_state (set_turn turn_string g) = board_state g ∧
  position (set_turn turn_string g) = position g ∧
  white_piece_list (set_turn turn_string g) = white_piece_list g ∧
  black_piece_list (set_turn turn_string g) = black_piece_list g ∧
  game_state (set_turn turn_string g) = game_state g.
Proof.
  unfold set_turn. case_bool_decide; simpl; repeat split; try done.
Qed.

(** ** The sliding walk *)

(** *** Fuel *)

Lemma slide_more_fuel fuel self current direction destination g r :
  slide fuel self current direction destination g = r →
  r ≠ Raise OutOfFuel →
  slide (S fuel) self current direction destination g = r.
Proof.
  revert current. induction fuel as [|fuel IH]; intros current H Hr.
  { simpl in H. congruence. }
  change (slide (S (S fuel)) self current direction destination g) with
    (next_position self current direction destination ≫= λ next,
     match next with
     | None => Ok false
     | Some next =>
         match board_state g !! next with
         | None =>
             if bool_decide (next ≠ destination)
             then slide (S fuel) self next direction destination g
             else Ok true
         | Some other =>
             if bool_decide (next ≠ destination) then Ok false
             else if bool_decide (get_owner self = get_owner other)
                  then Ok false else Ok true
         end
     end).
  simpl in H.
  destruct (next_position self current direction destination)
    as [[next|]|e]; simpl in *; try done.
  destruct (board_state g !! next); [done|].
  case_bool_decide; [|done]. by apply IH.
Qed.

Lemma slide_fuel_le (fuel fuel' : nat) self current direction destination g r :
  (fuel ≤ fuel')%nat →
  slide fuel self current direction destination g = r →
  r ≠ Raise OutOfFuel →
  slide fuel' self current direction destination g = r.
Proof.
  induction 1 as [|fuel' _ IH]; [done|]. intros H Hr.
  apply slide_more_fuel; auto.
Qed.

(** A loop that runs out of fuel has made that many successful steps. *)
Lemma slide_OutOfFuel_run fuel self current direction destination g :
  slide fuel self current direction destination g = Raise OutOfFuel →
  is_Some (run fuel self current direction destination).
Proof.
  revert current. induction fuel as [|fuel IH]; intros current H;
    [by eexists|].
  simpl in *.
  destruct (next_position self current direction destination)
    as [[next|]|e] eqn:Hn; simpl in *; try done.
  - destruct (board_state g !! next).
    + by repeat case_bool_decide.
    + case_bool_decide; [by apply IH|done].
  - apply next_position_python in Hn as [_ Hn]. by simplify_eq.
Qed.

Lemma fmap_Some_get_board_position s next :
  Some <$> get_board_position s = Ok (Some next) → next ∈ board_keys.
Proof.
  unfold get_board_position. case_decide; simpl; intros; by simplify_eq.
Qed.

Lemma step_both_key self s h dh v dv next :
  step_both self s h dh v dv = Ok (Some next) → next ∈ board_keys.
Proof.
  unfold step_both. intros H.
  apply bind_Ok in H as (c0 & _ & H). apply bind_Ok in H as (c1 & _ & H).
  repeat case_match; try done. by eapply fmap_Some_get_board_position.
Qed.

(** The stepper only ever returns board positions of the dictionary. *)
Lemma next_position_key self current direction destination next :
  next_position self current direction destination = Ok (Some next) →
  next ∈ board_keys.
Proof.
  assert (∀ v, step_vertical self current v = Ok (Some next) →
               next ∈ board_keys) as Hv.
  { unfold step_vertical. intros v H.
    apply bind_Ok in H as (c1 & _ & H). case_match; [|done].
    apply bind_Ok in H as (c0 & _ & H).
    by eapply fmap_Some_get_board_position. }
  assert (∀ h, step_horizontal self current h = Ok (Some next) →
               next ∈ board_keys) as Hh.
  { unfold step_horizontal. intros h H.
    apply bind_Ok in H as (c0 & _ & H). case_match; [|done].
    apply bind_Ok in H as (c1 & _ & H).
    by eapply fmap_Some_get_board_position. }
  assert (∀ h v b, step_knight self current destination h v b
                   = Ok (Some next) → next ∈ board_keys) as Hk.
  { unfold step_knight. intros h v b H.
    apply bind_Ok in H as (c1 & _ & H). apply bind_Ok in H as (rc & _ & H).
    apply bind_Ok in H as (d1 & _ & H). apply bind_Ok in H as (rd & _ & H).
    repeat case_match; try done; by eapply step_both_key. }
  unfold next_position, step_diagonal.
  destruct (get_type self), (get_owner self), direction;
    eauto using step_both_key; done.
Qed.

(** From any square of the board, in any direction, a rook, bishop or queen
    is off the board after seven steps at most: checked on the 64 squares,
    the 8 directions and the 3 kinds of piece. *)
Lemma run_from_key self key direction destination :
  sliding self → key ∈ board_keys →
  run 8 self key direction destination = None.
Proof.
  destruct self as [owner type i]. unfold sliding, board_keys. simpl.
  intros Hs Hk.
  assert (type = Rook ∨ type = Bishop ∨ type = Queen) as [->|[->| ->]]
    by done; clear Hs; destruct direction;
    repeat (apply elem_of_cons in Hk as [->|Hk]; [vm_compute; reflexivity|]);
    by apply elem_of_nil in Hk.
Qed.

(** C6 rests on this: the fuel given to the [while True] loop of a sliding
    piece is never used up, so the loop of the model ends the way the
    Python loop does. *)
Lemma slide_fuel_enough self current direction destination g :
  sliding self →
  slide slide_fuel self current direction destination g ≠ Raise OutOfFuel.
Proof.
  intros Hs [s H]%slide_OutOfFuel_run. unfold slide_fuel in H.
  change (run 9 self current direction destination) with
    (match next_position self current direction destination with
     | Ok (Some next) => run 8 self next direction destination
     | _ => None
     end) in H.
  destruct (next_position self current direction destination)
    as [[next|]|e] eqn:Hn; try done.
  apply next_position_key in Hn. by rewrite run_from_key in H.
Qed.

(** Whatever amount of fuel decides the walk, [slide_fuel] decides it the
    same way. *)
Lemma slide_any_fuel fuel self current direction destination g r :
  sliding self →
  slide fuel self current direction destination g = Ok r →
  slide slide_fuel self current direction destination g = Ok r.
Proof.
  intros Hs H. destruct (decide (fuel ≤ slide_fuel)%nat) as [Hle|Hgt].
  - by eapply slide_fuel_le.
  - pose proof (slide_fuel_enough self current direction destination g Hs)
      as Hf.
    eapply slide_fuel_le in Hf; [|shelve|done]. { by rewrite <-Hf. }
    Unshelve. lia.
Qed.

(** A clear walk of [n] steps costs [n] iterations of the loop. *)
Lemma slide_clear_walk self direction destination g n current s fuel :
  clear_walk self direction destination g n current s →
  slide (n + fuel) self current direction destination g
  = slide fuel self s direction destination g.
Proof.
  induction 1 as [|n current next s Hn Hb Hd _ IH]; [done|].
  simpl. rewrite Hn. simpl. rewrite Hb.
  by rewrite bool_decide_eq_true_2.
Qed.

(** *** The outcome of the walk *)

(** The tests pass exactly when [move] is accepted, on a consistent
    state. *)
Lemma accepted_iff self start direction destination g :
  consistent g →
  position g !! self = Some start →
  move_direction start destination = Ok (Some direction) →
  accepted self destination g ↔
  legal_move_test self start direction destination g = Ok true.
Proof.
  intros Hc Hp Hd. unfold accepted. split.
  - intros (v & g' & Hm & Hv).
    apply move_inv in Hm as [[_ Hm]|Hm].
    { destruct Hm as [|(? & ? & _)]; congruence. }
    destruct Hm as (start' & direction' & Hp' & Hd' & Ht' & _).
    rewrite Hp in Hp'. injection Hp' as <-.
    rewrite Hd in Hd'. by injection Hd' as <-.
  - intros Ht. unfold move. rewrite Hp, Hd, Ht.
    destruct (execute_move self start destination g) as [r g'] eqn:Hx.
    apply move_direction_neq in Hd.
    apply execute_move_inv in Hx as (_ & _ & _ & Hx); [|done].
    destruct (board_state g !! destination) as [q|] eqn:Hq.
    + destruct (list_remove_elem_of q _ (occupant_in_roster g Hc _ _ Hq))
        as [l Hl].
      rewrite Hl in Hx. destruct Hx as (_ & -> & _). by eexists _, _.
    + destruct Hx as (-> & _). by eexists _, _.
Qed.

(** What [move] returns when the tests pass. *)
Lemma move_legal self start direction destination g :
  consistent g →
  position g !! self = Some start →
  move_direction start destination = Ok (Some direction) →
  legal_move_test self start direction destination g = Ok true →
  (move self destination g).1 =
    match board_state g !! destination with
    | Some q => Ok (RPiece q)
    | None => Ok RTrue
    end.
Proof.
  intros Hc Hp Hd Ht. unfold move. rewrite Hp, Hd, Ht.
  destruct (execute_move self start destination g) as [r g'] eqn:Hx.
  apply move_direction_neq in Hd.
  apply execute_move_inv in Hx as (_ & _ & _ & Hx); [|done].
  destruct (board_state g !! destination) as [q|] eqn:Hq.
  - destruct (list_remove_elem_of q _ (occupant_in_roster g Hc _ _ Hq))
      as [l Hl].
    rewrite Hl in Hx. by destruct Hx as (_ & -> & _).
  - by destruct Hx as (-> & _).
Qed.

Lemma move_illegal self start direction destination g :
  position g !! self = Some start →
  move_direction start destination = Ok (Some direction) →
  legal_move_test self start direction destination g = Ok false →
  move self destination g = (Ok RFalse, g).
Proof. intros Hp Hd Ht. unfold move. by rewrite Hp, Hd, Ht. Qed.

Lemma legal_move_test_sliding self start direction destination g :
  sliding self →
  legal_move_test self start direction destination g
  = slide slide_fuel self start direction destination g.
Proof. unfold legal_move_test. by intros [->|[->| ->]]. Qed.

(** C6: a rook, bishop or queen walks from its square towards the
    destination.  After any number of steps over unoccupied squares short
    of the destination, the next call of the stepper decides the move: when
    it returns [None] the move is rejected; when it reaches an occupied
    square that is not the destination, or holds a piece of the mover's
    colour, the move is rejected; when it reaches the destination and an
    opposing piece stands there, the move is accepted and returns that
    piece; when it reaches the destination unoccupied, the move is accepted
    and returns [True]. *)
Theorem sliding_move_outcome self start destination direction g n current :
  reachable g →
  sliding self →
  position g !! self = Some start →
  move_direction start destination = Ok (Some direction) →
  clear_walk self direction destination g n start current →
  (next_position self current direction destination = Ok None →
     move self destination g = (Ok RFalse, g)) ∧
  (∀ next q,
     next_position self current direction destination = Ok (Some next) →
     board_state g !! next = Some q →
     next ≠ destination ∨ get_owner q = get_owner self →
     move self destination g = (Ok RFalse, g)) ∧
  (∀ q,
     next_position self current direction destination = Ok (Some destination) →
     board_state g !! destination = Some q →
     get_owner q ≠ get_owner self →
     (move self destination g).1 = Ok (RPiece q)) ∧
  (next_position self current direction destination = Ok (Some destination) →
     board_state g !! destination = None →
     (move self destination g).1 = Ok RTrue).
Proof.
  intros Hc%reachable_consistent Hs Hp Hd Hw.
  assert (∀ r, slide 1 self current direction destination g = Ok r →
               legal_move_test self start direction destination g = Ok r)
    as Hlast.
  { intros r Hr. rewrite legal_move_test_sliding by done.
    apply (slide_any_fuel (n + 1)); [done|].
    by rewrite (slide_clear_walk _ _ _ _ _ _ _ _ Hw). }
  repeat split.
  - intros Hn. eapply move_illegal; [done..|].
    apply Hlast. simpl. by rewrite Hn.
  - intros next q Hn Hq Hrej. eapply move_illegal; [done..|].
    apply Hlast. simpl. rewrite Hn. simpl. rewrite Hq.
    destruct Hrej as [Hne| ->].
    + by rewrite bool_decide_eq_true_2.
    + case_bool_decide; [done|]. by rewrite bool_decide_eq_true_2.
  - intros q Hn Hq Ho. erewrite move_legal, Hq; [done..|].
    apply Hlast. simpl. rewrite Hn. simpl. rewrite Hq.
    rewrite bool_decide_eq_false_2 by (by intros ?).
    by rewrite bool_decide_eq_false_2.
  - intros Hn Hq. erewrite move_legal, Hq; [done..|].
    apply Hlast. simpl. rewrite Hn. simpl. rewrite Hq.
    by rewrite bool_decide_eq_false_2 by (by intros ?).
Qed.

Lemma sliding_move_outcome_witness :
  let g := play queen_hunt new_game in
  (move (mkPiece White Bishop 13) "a6" g).1
  = Ok (RPiece (mkPiece Black Pawn 0)).
Proof.
  intros g.
  refine (proj1 (proj2 (proj2
    (sliding_move_outcome (mkPiece White Bishop 13) "f1" "a6"
       diagonal_up_left g 4 "b5" _ _ _ _ _))) _ _ _ _).
  - apply reachable_play, reachable_new_game.
  - right. left. reflexivity.
  - vm_compute. reflexivity.
  - vm_compute. reflexivity.
  - apply (clear_walk_S _ _ _ _ 3 "f1" "e2" "b5");
      [vm_compute; reflexivity | vm_compute; reflexivity | discriminate |].
    apply (clear_walk_S _ _ _ _ 2 "e2" "d3" "b5");
      [vm_compute; reflexivity | vm_compute; reflexivity | discriminate |].
    apply (clear_walk_S _ _ _ _ 1 "d3" "c4" "b5");
      [vm_compute; reflexivity | vm_compute; reflexivity | discriminate |].
    apply (clear_walk_S _ _ _ _ 0 "c4" "b5" "b5");
      [vm_compute; reflexivity | vm_compute; reflexivity | discriminate |].
    apply clear_walk_O.
  - vm_compute. reflexivity.
  - vm_compute. reflexivity.
  - discriminate.
Defined.

(** ** Pawns on their starting rank *)

(** The test [move] makes to tell a pawn that has not moved yet. *)
Lemma legal_move_test_pawn_start self start direction destination g s1 :
  get_type self = Pawn →
  index start 1 = Ok s1 →
  (s1 = "2"%char ∧ get_owner self = White) ∨
  (s1 = "7"%char ∧ get_owner self = Black) →
  legal_move_test self start direction destination g =
    if diagonal_in direction
    then pawn_diagonal self start direction destination g
    else pawn_first_move (seq 0 2) self start direction destination g.
Proof.
  intros Hty Hi Hs. unfold legal_move_test. rewrite Hty, Hi. simpl.
  by destruct Hs as [[-> ->]|[-> ->]].
Qed.

(** One square ahead: the first iteration of the loop lands on the
    destination. *)
Lemma pawn_first_move_one self start direction destination g :
  next_position self start direction destination = Ok (Some destination) →
  pawn_first_move (seq 0 2) self start direction destination g
  = Ok (bool_decide (board_state g !! destination = None)).
Proof.
  intros Hn. simpl. rewrite Hn. simpl.
  destruct (board_state g !! destination); [done|].
  by rewrite bool_decide_eq_false_2 by (by intros ?).
Qed.

(** Two squares ahead: the first iteration passes over [middle], the second
    lands on the destination. *)
Lemma pawn_first_move_two self start direction middle destination g :
  next_position self start direction destination = Ok (Some middle) →
  middle ≠ destination →
  next_position self middle direction destination = Ok (Some destination) →
  pawn_first_move (seq 0 2) self start direction destination g
  = Ok (bool_decide (board_state g !! middle = None ∧
                     board_state g !! destination = None)).
Proof.
  intros Hn1 Hne Hn2. simpl. rewrite Hn1. simpl.
  destruct (board_state g !! middle).
  { by rewrite bool_decide_eq_false_2 by (by intros [? _]). }
  rewrite bool_decide_eq_true_2 by done. rewrite Hn2. simpl.
  destruct (board_state g !! destination).
  { by rewrite bool_decide_eq_false_2 by (by intros [_ ?]). }
  rewrite bool_decide_eq_false_2 by (by intros ?).
  by rewrite bool_decide_eq_true_2.
Qed.

(** One square ahead on a diagonal. *)
Lemma pawn_diagonal_one self start direction destination g :
  next_position self start direction destination = Ok (Some destination) →
  pawn_diagonal self start direction destination g = Ok true ↔
  ∃ q, board_state g !! destination = Some q ∧ get_owner q ≠ get_owner self.
Proof.
  intros Hn. unfold pawn_diagonal. rewrite Hn. simpl.
  destruct (board_state g !! destination) as [q|].
  - rewrite bool_decide_eq_false_2 by (by intros ?).
    case_bool_decide as Ho; split; try done.
    + intros (q' & [= <-] & ?). congruence.
    + intros _. exists q. split; [done|]. congruence.
  - split; [done|]. by intros (q' & ? & _).
Qed.

Lemma Ok_bool_decide_true (P : Prop) `{!Decision P} :
  Ok (bool_decide P) = Ok true ↔ P.
Proof.
  split.
  - intros [= H]. by apply bool_decide_eq_true in H.
  - intros H. by rewrite bool_decide_eq_true_2.
Qed.

(** The three rules for one pawn on one square, from what the stepper
    returns there. *)
Lemma pawn_start_straight_one self start direction destination g s1 :
  consistent g → get_type self = Pawn →
  position g !! self = Some start →
  index start 1 = Ok s1 →
  (s1 = "2"%char ∧ get_owner self = White) ∨
  (s1 = "7"%char ∧ get_owner self = Black) →
  move_direction start destination = Ok (Some direction) →
  diagonal_in direction = false →
  next_position self start direction destination = Ok (Some destination) →
  accepted self destination g ↔ board_state g !! destination = None.
Proof.
  intros Hc Hty Hp Hi Hs Hd Hdiag Hn.
  rewrite (accepted_iff _ _ _ _ _ Hc Hp Hd).
  rewrite (legal_move_test_pawn_start _ _ _ _ _ _ Hty Hi Hs), Hdiag.
  rewrite pawn_first_move_one by done. apply Ok_bool_decide_true.
Qed.

Lemma pawn_start_straight_two self start direction middle destination g s1 :
  consistent g → get_type self = Pawn →
  position g !! self = Some start →
  index start 1 = Ok s1 →
  (s1 = "2"%char ∧ get_owner self = White) ∨
  (s1 = "7"%char ∧ get_owner self = Black) →
  move_direction start destination = Ok (Some direction) →
  diagonal_in direction = false →
  next_position self start direction destination = Ok (Some middle) →
  middle ≠ destination →
  next_position self middle direction destination = Ok (Some destination) →
  accepted self destination g ↔
  board_state g !! middle = None ∧ board_state g !! destination = None.
Proof.
  intros Hc Hty Hp Hi Hs Hd Hdiag Hn1 Hne Hn2.
  rewrite (accepted_iff _ _ _ _ _ Hc Hp Hd).
  rewrite (legal_move_test_pawn_start _ _ _ _ _ _ Hty Hi Hs), Hdiag.
  rewrite (pawn_first_move_two _ _ _ middle) by done.
  apply Ok_bool_decide_true.
Qed.

Lemma pawn_start_diagonal self start direction destination g s1 :
  consistent g → get_type self = Pawn →
  position g !! self = Some start →
  index start 1 = Ok s1 →
  (s1 = "2"%char ∧ get_owner self = White) ∨
  (s1 = "7"%char ∧ get_owner self = Black) →
  move_direction start destination = Ok (Some direction) →
  diagonal_in direction = true →
  next_position self start direction destination = Ok (Some destination) →
  accepted self destination g ↔
  ∃ q, board_state g !! destination = Some q ∧ get_owner q ≠ get_owner self.
Proof.
  intros Hc Hty Hp Hi Hs Hd Hdiag Hn.
  rewrite (accepted_iff _ _ _ _ _ Hc Hp Hd).
  rewrite (legal_move_test_pawn_start _ _ _ _ _ _ Hty Hi Hs), Hdiag.
  by apply pawn_diagonal_one.
Qed.

(** Replaces the coordinates of the goal by their strings. *)
Ltac eval_coords :=
  repeat match goal with
  | |- context [coord ?a ?b] =>
      let s := eval vm_compute in (coord a b) in change (coord a b) with s
  | H : context [coord ?a ?b] |- _ =>
      let s := eval vm_compute in (coord a b) in
      change (coord a b) with s in H
  end.

(** Splits a file number between 1 and 8 into its eight values. *)
Ltac each_file file H :=
  let H' := fresh in
  assert (file = 1 ∨ file = 2 ∨ file = 3 ∨ file = 4 ∨
          file = 5 ∨ file = 6 ∨ file = 7 ∨ file = 8)%nat as H' by lia;
  destruct H' as [->|[->|[->|[->|[->|[->|[->| ->]]]]]]].

(** C5: a pawn standing on its owner's starting rank (rank 2 for White,
    rank 7 for Black).  A move one square straight ahead is accepted exactly
    when that square is unoccupied; a move two squares straight ahead
    exactly when the square in between and the destination are both
    unoccupied; a move one square ahead on a diagonal exactly when the
    destination holds a piece of the other player. *)
Theorem pawn_on_starting_rank self (file : nat) g :
  reachable g →
  get_type self = Pawn →
  (1 ≤ file ≤ 8)%nat →
  position g !! self = Some (coord file (starting_rank (get_owner self))) →
  let ahead n := forward (get_owner self) (starting_rank (get_owner self)) n in
  (accepted self (coord file (ahead 1)) g ↔
   board_state g !! coord file (ahead 1) = None) ∧
  (accepted self (coord file (ahead 2)) g ↔
   board_state g !! coord file (ahead 1) = None ∧
   board_state g !! coord file (ahead 2) = None) ∧
  (∀ file' : nat,
     (1 ≤ file' ≤ 8)%nat → file' = (file + 1)%nat ∨ file = (file' + 1)%nat →
     accepted self (coord file' (ahead 1)) g ↔
     ∃ q, board_state g !! coord file' (ahead 1) = Some q ∧
          get_owner q ≠ get_owner self).
Proof.
  intros Hc%reachable_consistent Hty Hfile Hp ahead. subst ahead.
  destruct self as [owner type i]. simpl in Hty. subst type.
  cbn [get_owner] in *.
  destruct owner; each_file file Hfile; eval_coords.
  all: split; [|split].
  all: try (eapply pawn_start_straight_one;
            [done | done | done | reflexivity | (by left) || (by right)
            | reflexivity | reflexivity | reflexivity]).
  all: try (eapply pawn_start_straight_two;
            [done | done | done | reflexivity | (by left) || (by right)
            | reflexivity | reflexivity | reflexivity | discriminate
            | reflexivity]).
  all: intros file' Hfile' Hadj; each_file file' Hfile'; try lia;
    eval_coords.
  all: eapply pawn_start_diagonal;
         [done | done | done | reflexivity | (by left) || (by right)
         | reflexivity | reflexivity | reflexivity].
Qed.

Lemma pawn_on_starting_rank_witness :
  accepted (mkPiece White Pawn 4) "e4" new_game.
Proof.
  destruct (pawn_on_starting_rank (mkPiece White Pawn 4) 5 new_game)
    as (_ & H & _).
  - apply reachable_new_game.
  - reflexivity.
  - lia.
  - vm_compute. reflexivity.
  - apply H. split; vm_compute; reflexivity.
Defined.

(** * More of the engine *)

(** ** The state machine *)

(** X1: once the game is won, no sequence of calls of [make_move] changes
    anything. *)
Theorem game_over_absorbing moves g :
  game_state g ≠ UNFINISHED → play moves g = g.
Proof.
  intros Hs. induction moves as [|[s1 s2] moves IH]; [done|].
  simpl. unfold make_move at 1.
  rewrite bool_decide_eq_true_2; [done|].
  destruct (game_state g); auto. done.
Qed.

Lemma game_over_absorbing_witness :
  let g := (make_move "c3" "d5" (play queen_hunt new_game)).2 in
  play [("e7", "e5"); ("d2", "d4")] g = g.
Proof.
  intros g. apply game_over_absorbing. vm_compute. discriminate.
Defined.

(** On a consistent state [make_move] either is accepted or raises and
    leaves the state as it was. *)
Lemma make_move_Raise_consistent string1 string2 g e g' :
  consistent g →
  make_move string1 string2 g = (Raise e, g') →
  g' = g.
Proof.
  intros Hc. unfold make_move.
  case_bool_decide; [by intros; simplify_eq|].
  destruct (outside_board string1 string2) as [[]|];
    try by (intros; simplify_eq).
  unfold get_position_state, get_board_position.
  destruct (decide (string1 ∈ board_keys)); simpl;
    [|by intros; simplify_eq].
  destruct (board_state g !! string1) as [self|] eqn:Hself;
    [|by intros; simplify_eq].
  case_bool_decide; [by intros; simplify_eq|].
  destruct (decide (string2 ∈ board_keys)); [|by intros; simplify_eq].
  destruct (move self string2 g) as [[mv|err] g1] eqn:Hm.
  - intros Ha. destruct mv; simpl in Ha; simplify_eq.
    eapply move_rejected_state; [done|]. by left.
  - intros ?. simplify_eq.
    apply move_inv in Hm as [[-> _]|Hm]; [done|].
    destruct Hm as (start & direction & Hp & Hd & _ & Hx).
    rewrite (occupant_position g Hc _ _ Hself) in Hp. simplify_eq.
    apply move_direction_neq in Hd.
    by destruct (execute_move_consistent _ _ _ _ _ _ Hc Hself Hd Hx)
      as [_ [mv ?]].
Qed.

(** X2: in a game played through [make_move] and [set_turn], a call of
    [make_move] that raises an exception of any kind, built-in ones
    included, leaves the whole state as it was. *)
Theorem raise_leaves_state string1 string2 g e g' :
  reachable g →
  make_move string1 string2 g = (Raise e, g') →
  g' = g.
Proof.
  intros Hc%reachable_consistent. by apply make_move_Raise_consistent.
Qed.

Lemma raise_leaves_state_witness :
  (make_move "e2" "e4x" new_game).2 = new_game.
Proof.
  apply (raise_leaves_state "e2" "e4x" new_game KeyError).
  - apply reachable_new_game.
  - vm_compute. reflexivity.
Defined.

(** X3: a move from a square to itself is never accepted. *)
Theorem same_square_rejected string g v g' :
  reachable g →
  make_move string string g ≠ (Ok v, g').
Proof.
  intros Hc%reachable_consistent Hmm.
  by apply make_move_Ok_executed in Hmm
    as (_ & self & d & mv & g1 & _ & _ & Hne & _); [|done].
Qed.

Lemma same_square_rejected_witness :
  make_move "a1" "a1" new_game ≠ (Ok RTrue, new_game).
Proof. apply same_square_rejected, reachable_new_game. Defined.

(** X4: what an accepted move does to the board: the origin held a piece of
    the turn holder and is empty afterwards, the destination holds that
    piece, which records the destination as its position, and no other
    square changes. *)
Theorem accepted_move_frame string1 string2 g v g' :
  reachable g →
  make_move string1 string2 g = (Ok v, g') →
  ∃ mover,
    board_state g !! string1 = Some mover ∧
    get_owner mover = turn g ∧
    board_state g' !! string1 = None ∧
    board_state g' !! string2 = Some mover ∧
    position g' !! mover = Some string2 ∧
    ∀ sq, sq ≠ string1 → sq ≠ string2 →
          board_state g' !! sq = board_state g !! sq.
Proof.
  intros Hc%reachable_consistent Hmm.
  pose proof (make_move_consistent string1 string2 g Hc) as Hc'.
  rewrite Hmm in Hc'. simpl in Hc'.
  apply make_move_Ok_executed in Hmm as (_ & self & d & mv & g1 & Hself &
    Ho & Hne & _ & _ & Hx & Ha); [|done].
  apply execute_move_inv in Hx as (_ & _ & Hb & _); [|done].
  apply after_move_fields in Ha as (Hb' & _ & _).
  assert (board_state g'
          = <[string2:=self]> (delete string1 (board_state g))) as Hbg
    by congruence.
  assert (board_state g' !! string2 = Some self) as H2
    by by rewrite Hbg, lookup_insert_eq.
  exists self. repeat split; try done.
  - rewrite Hbg, lookup_insert_ne by done. by rewrite lookup_delete_eq.
  - by apply (occupant_position g' Hc').
  - intros sq H1 H2'. rewrite Hbg, lookup_insert_ne by done.
    by rewrite lookup_delete_ne.
Qed.

Lemma accepted_move_frame_witness :
  ∃ mover,
    board_state new_game !! "e2" = Some mover ∧
    get_owner mover = turn new_game ∧
    board_state (make_move "e2" "e4" new_game).2 !! "e2" = None ∧
    board_state (make_move "e2" "e4" new_game).2 !! "e4" = Some mover ∧
    position (make_move "e2" "e4" new_game).2 !! mover = Some "e4" ∧
    ∀ sq, sq ≠ "e2" → sq ≠ "e4" →
          board_state (make_move "e2" "e4" new_game).2 !! sq
          = board_state new_game !! sq.
Proof.
  apply (accepted_move_frame "e2" "e4" new_game RTrue).
  - apply reachable_new_game.
  - vm_compute. reflexivity.
Defined.

(** X5: an accepted move onto an unoccupied square takes nothing: both
    rosters are what they were, the game goes on and the turn passes. *)
Theorem plain_move_outcome string1 string2 g v g' :
  reachable g →
  make_move string1 string2 g = (Ok v, g') →
  board_state g !! string2 = None →
  (∀ c, get_piece_list c g' = get_piece_list c g) ∧
  game_state g' = UNFINISHED ∧
  turn g' = other_player (turn g).
Proof.
  intros Hc%reachable_consistent Hmm Hq.
  apply make_move_Ok_executed in Hmm as (Hs & self & d & mv & g1 & Hself &
    Ho & Hne & _ & _ & Hx & Ha); [|done].
  apply execute_move_inv in Hx as (Hs1 & Ht1 & _ & Hx); [|done].
  rewrite Hq in Hx. destruct Hx as ([= ->] & _ & Hl).
  simpl in Ha. simplify_eq. simpl.
  repeat split; try congruence.
  intros c. rewrite <-Hl. by destruct c.
Qed.

Lemma plain_move_outcome_witness :
  turn (make_move "e2" "e4" new_game).2 = Black.
Proof.
  refine (proj2 (proj2 (plain_move_outcome "e2" "e4" new_game RTrue _
                          reachable_new_game _ _))).
  - vm_compute. reflexivity.
  - vm_compute. reflexivity.
Defined.

(** X6: a capture takes a piece of the other player, never one of the
    mover's; the opponent's roster gets shorter by one and the mover's
    roster is what it was. *)
Theorem capture_takes_opponent string1 string2 g v g' q :
  reachable g →
  make_move string1 string2 g = (Ok v, g') →
  board_state g !! string2 = Some q →
  get_owner q = other_player (turn g) ∧
  S (List.length (get_piece_list (other_player (turn g)) g'))
    = List.length (get_piece_list (other_player (turn g)) g) ∧
  get_piece_list (turn g) g' = get_piece_list (turn g) g.
Proof.
  intros Hc%reachable_consistent Hmm Hq.
  destruct (make_move_capture _ _ _ _ _ q Hc Hmm Hq) as (Ho & Hl & _).
  apply make_move_Ok_executed in Hmm as (Hs & self & d & mv & g1 & Hself &
    Ho' & Hne & _ & _ & Hx & Ha); [|done].
  apply execute_move_inv in Hx as (_ & _ & _ & Hx); [|done].
  rewrite Hq in Hx. destruct Hx as [_ Hx]. rewrite Hl in Hx.
  destruct Hx as ([= ->] & _ & Hl2).
  apply after_move_fields in Ha as (_ & _ & Hl').
  rewrite <-Ho. repeat split; try done.
  - clear -Hl. revert Hl.
    generalize (get_piece_list (get_owner q) g')
               (get_piece_list (get_owner q) g).
    intros l' l. revert l'.
    induction l as [|y l IH]; intros l' H; simpl in H; [done|].
    case_decide; [by simplify_eq|].
    destruct (list_remove q l) as [l0|] eqn:E; [|done].
    injection H as <-. simpl. f_equal. by apply IH.
  - rewrite Hl'. rewrite Ho in Hl2.
    by destruct (turn g); simpl in *.
Qed.

Lemma capture_takes_opponent_witness :
  let g := play pawn_trade new_game in
  List.length (black_piece_list (make_move "e4" "d5" g).2) = 15.
Proof.
  intros g.
  destruct (capture_takes_opponent "e4" "d5" g RTrue
              (make_move "e4" "d5" g).2 (mkPiece Black Pawn 3))
    as (_ & H & _).
  - apply reachable_play, reachable_new_game.
  - vm_compute. reflexivity.
  - vm_compute. reflexivity.
  - apply Nat.succ_inj. etransitivity; [exact H|].
    vm_compute. reflexivity.
Defined.

(** ** Coordinates *)

Lemma coord_inj (file rank file' rank' : nat) :
  (file ≤ 8)%nat → (rank ≤ 8)%nat → (file' ≤ 8)%nat → (rank' ≤ 8)%nat →
  coord file rank = coord file' rank' → file = file' ∧ rank = rank'.
Proof.
  intros Hf Hr Hf' Hr'. unfold coord, str2. intros [= H1 H2].
  apply (f_equal nat_of_ascii) in H1, H2.
  rewrite !nat_ascii_embedding in H1, H2 by lia. lia.
Qed.

Lemma coord_key (file rank : nat) :
  (1 ≤ file ≤ 8)%nat → (1 ≤ rank ≤ 8)%nat → coord file rank ∈ board_keys.
Proof.
  intros Hf Hr. each_file file Hf; each_file rank Hr;
    apply (bool_decide_unpack _); vm_compute; exact I.
Qed.

Lemma key_coord s :
  s ∈ board_keys →
  ∃ file rank : nat, (1 ≤ file ≤ 8)%nat ∧ (1 ≤ rank ≤ 8)%nat ∧
                    s = coord file rank.
Proof.
  unfold board_keys. intros H.
  repeat (apply elem_of_cons in H as [->|H];
          [match goal with
           | |- ∃ _ _, _ ∧ _ ∧ String ?c0 (String ?c1 _) = _ =>
               exists (nat_of_ascii c0 - 96)%nat, (nat_of_ascii c1 - 48)%nat;
               split; [simpl; lia | split; [simpl; lia | reflexivity]]
           end|]).
  by apply elem_of_nil in H.
Qed.

Lemma coordZ_coord (file rank : nat) :
  coordZ (Z.of_nat file) (Z.of_nat rank) = coord file rank.
Proof. unfold coordZ. by rewrite !Nat2Z.id. Qed.

Lemma on_boardZ_spec a b :
  on_boardZ a b = true ↔ (1 ≤ a ≤ 8 ∧ 1 ≤ b ≤ 8)%Z.
Proof.
  unfold on_boardZ. rewrite !andb_true_iff, !Z.leb_le. lia.
Qed.

Lemma index_coord_0 file rank :
  index (coord file rank) 0 = Ok (ascii_of_nat (96 + file)).
Proof. reflexivity. Qed.

Lemma index_coord_1 file rank :
  index (coord file rank) 1 = Ok (ascii_of_nat (48 + rank)).
Proof. reflexivity. Qed.

Lemma compare_chars_sgn (a b : nat) :
  (1 ≤ a ≤ 8)%nat → (1 ≤ b ≤ 8)%nat →
  compare_chars (ascii_of_nat (96 + a)) (ascii_of_nat (96 + b))
  = Z.sgn (Z.of_nat b - Z.of_nat a) ∧
  compare_chars (ascii_of_nat (48 + a)) (ascii_of_nat (48 + b))
  = Z.sgn (Z.of_nat b - Z.of_nat a).
Proof.
  intros Ha Hb. each_file a Ha; each_file b Hb; split; vm_compute;
    reflexivity.
Qed.

(** The direction [move] computes between two squares. *)
Lemma move_direction_coords (file rank file' rank' : nat) :
  (1 ≤ file ≤ 8)%nat → (1 ≤ rank ≤ 8)%nat →
  (1 ≤ file' ≤ 8)%nat → (1 ≤ rank' ≤ 8)%nat →
  move_direction (coord file rank) (coord file' rank')
  = Ok (direction_between file rank file' rank').
Proof.
  intros Hf Hr Hf' Hr'. unfold move_direction, direction_between.
  rewrite !index_coord_0, !index_coord_1.
  change (Ok (direction_of
    (compare_chars (ascii_of_nat (96 + file)) (ascii_of_nat (96 + file')))
    (compare_chars (ascii_of_nat (48 + rank)) (ascii_of_nat (48 + rank'))))
    = Ok (direction_of (Z.sgn (Z.of_nat file' - Z.of_nat file))
                       (Z.sgn (Z.of_nat rank' - Z.of_nat rank)))).
  destruct (compare_chars_sgn file file' Hf Hf') as [-> _].
  by destruct (compare_chars_sgn rank rank' Hr Hr') as [_ ->].
Qed.

Lemma direction_of_offset h v d :
  (-1 ≤ h ≤ 1)%Z → (-1 ≤ v ≤ 1)%Z →
  direction_of h v = Some d ↔ (h, v) ≠ (0, 0)%Z ∧ offset d = (h, v).
Proof.
  intros Hh Hv.
  assert (h = -1 ∨ h = 0 ∨ h = 1)%Z as [->|[->| ->]] by lia;
    assert (v = -1 ∨ v = 0 ∨ v = 1)%Z as [->|[->| ->]] by lia;
    vm_compute; destruct d; split; try done;
    try (intros [_ ?]; done); try (by intros [? _]).
Qed.

(** The direction between two squares is the one whose offset has the signs
    of the differences. *)
Lemma direction_between_offset (file rank file' rank' : nat) d :
  direction_between file rank file' rank' = Some d ↔
  (file, rank) ≠ (file', rank') ∧
  offset d = (Z.sgn (Z.of_nat file' - Z.of_nat file),
              Z.sgn (Z.of_nat rank' - Z.of_nat rank)).
Proof.
  unfold direction_between. rewrite direction_of_offset by lia.
  split; intros [Hne Ho]; (split; [|done]).
  - intros [= -> ->]. apply Hne. by rewrite !Z.sub_diag.
  - intros [= H1 H2]. apply Z.sgn_null_iff in H1, H2.
    apply Hne. f_equal; lia.
Qed.

(** ** The stepper on the board *)

(** X7: from a square of the board, the stepper of a piece that is not a
    knight returns the neighbouring square in the given direction when the
    piece steps in that direction and the neighbour is on the board, and
    [None] otherwise; it raises nothing. *)
Theorem stepper_geometry self (file rank : nat) d destination :
  get_type self ≠ Knight →
  (1 ≤ file ≤ 8)%nat → (1 ≤ rank ≤ 8)%nat →
  next_position self (coord file rank) d destination =
    Ok (if steps_in (get_type self) (get_owner self) d
           && ahead_on_board d file rank 1
        then Some (ahead d file rank 1) else None).
Proof.
  intros Hty Hf Hr. destruct self as [owner type i]. simpl in *.
  each_file file Hf; each_file rank Hr;
    destruct type; try done; destruct owner; destruct d;
    vm_compute; reflexivity.
Qed.

(** ** Moves between squares of the board *)

(** An accepted move has a direction and passes the tests for it. *)
Lemma accepted_coords self (file rank file' rank' : nat) g :
  consistent g →
  (1 ≤ file ≤ 8)%nat → (1 ≤ rank ≤ 8)%nat →
  (1 ≤ file' ≤ 8)%nat → (1 ≤ rank' ≤ 8)%nat →
  position g !! self = Some (coord file rank) →
  accepted self (coord file' rank') g ↔
  ∃ d, direction_between file rank file' rank' = Some d ∧
       legal_move_test self (coord file rank) d (coord file' rank') g
       = Ok true.
Proof.
  intros Hc Hf Hr Hf' Hr' Hp.
  pose proof (move_direction_coords file rank file' rank' Hf Hr Hf' Hr')
    as Hd.
  split.
  - intros (v & g' & Hm & Hv).
    apply move_inv in Hm as [[_ Hm]|Hm].
    { destruct Hm as [|(? & ? & _)]; congruence. }
    destruct Hm as (start' & d & Hp' & Hd' & Ht' & _).
    rewrite Hp in Hp'. injection Hp' as <-.
    rewrite Hd in Hd'. injection Hd' as Hd'. by exists d.
  - intros (d & Hd' & Ht). rewrite Hd' in Hd.
    by apply (accepted_iff _ _ _ _ _ Hc Hp Hd).
Qed.

(** The square [k] steps ahead, when it is on the board, in numbers. *)
Lemma ahead_eq_coord d (file rank file' rank' : nat) k :
  ahead_on_board d file rank k = true →
  (file' ≤ 8)%nat → (rank' ≤ 8)%nat →
  ahead d file rank k = coord file' rank' ↔
  (Z.of_nat file' = Z.of_nat file + k * (offset d).1 ∧
   Z.of_nat rank' = Z.of_nat rank + k * (offset d).2)%Z.
Proof.
  unfold ahead_on_board, ahead, coordZ. intros Hb%on_boardZ_spec Hf' Hr'.
  split.
  - intros H. apply coord_inj in H; lia.
  - intros [H1 H2]. rewrite <-H1, <-H2. by rewrite !Nat2Z.id.
Qed.

Lemma single_step_Ok_true self current d destination g :
  single_step self current d destination g = Ok true ↔
  next_position self current d destination = Ok (Some destination) ∧
  ∀ q, board_state g !! destination = Some q →
       get_owner q ≠ get_owner self.
Proof.
  unfold single_step.
  destruct (next_position self current d destination) as [[next|]|e];
    simpl; [|by split; [|intros [? _]]..].
  case_bool_decide as Hn.
  { split; [done|]. intros [[= ?] _]. done. }
  subst next.
  destruct (board_state g !! destination) as [other|].
  - case_bool_decide as Ho; split; try done.
    + intros [_ H]. by destruct (H other).
    + intros _. split; [done|]. intros q [= <-]. congruence.
  - split; [|done]. intros _. by split.
Qed.

Lemma Ok_Some_inj {A} (a b : A) : Ok (Some a) = Ok (Some b) → a = b.
Proof. by intros [= ?]. Qed.

(** Splits on the sign of a difference. *)
Ltac sgn_cases x :=
  let H := fresh in
  destruct (Z.sgn_spec x) as [[? H]|[[? H]|[? H]]]; rewrite ?H in *.

(** X8: the king.  A move of a king between two squares of the board is
    accepted exactly when the destination is one of the up to eight
    neighbouring squares and does not hold a piece of the king's owner. *)
Theorem king_rule self (file rank file' rank' : nat) g :
  reachable g →
  get_type self = King →
  (1 ≤ file ≤ 8)%nat → (1 ≤ rank ≤ 8)%nat →
  (1 ≤ file' ≤ 8)%nat → (1 ≤ rank' ≤ 8)%nat →
  position g !! self = Some (coord file rank) →
  accepted self (coord file' rank') g ↔
  (file, rank) ≠ (file', rank') ∧
  (Z.abs (Z.of_nat file' - Z.of_nat file) ≤ 1)%Z ∧
  (Z.abs (Z.of_nat rank' - Z.of_nat rank) ≤ 1)%Z ∧
  ∀ q, board_state g !! coord file' rank' = Some q →
       get_owner q ≠ get_owner self.
Proof.
  intros Hc%reachable_consistent Hty Hf Hr Hf' Hr' Hp.
  rewrite (accepted_coords _ _ _ _ _ _ Hc Hf Hr Hf' Hr' Hp).
  assert (get_type self ≠ Knight) as Hk by (by rewrite Hty).
  split.
  - intros (d & Hd & Ht). apply direction_between_offset in Hd as [Hne Ho].
    unfold legal_move_test in Ht. rewrite Hty in Ht.
    apply single_step_Ok_true in Ht as [Hn Hown].
    rewrite (stepper_geometry _ _ _ _ _ Hk Hf Hr), Hty in Hn. simpl in Hn.
    destruct (ahead_on_board d file rank 1) eqn:Hb; [|done].
    apply Ok_Some_inj, ahead_eq_coord in Hn; [|done|lia..].
    rewrite Ho in Hn. simpl in Hn. repeat split; try done.
    + sgn_cases (Z.of_nat file' - Z.of_nat file)%Z; lia.
    + sgn_cases (Z.of_nat rank' - Z.of_nat rank)%Z; lia.
  - intros (Hne & Ha & Hb & Hown).
    destruct (direction_between file rank file' rank') as [d|] eqn:Hd.
    2:{ unfold direction_between in Hd.
        apply eq_None_not_Some in Hd. destruct Hd.
        assert (∃ d, direction_of (Z.sgn (Z.of_nat file' - Z.of_nat file))
                       (Z.sgn (Z.of_nat rank' - Z.of_nat rank)) = Some d)
          as [d Hd]; [|by eexists].
        destruct (direction_of _ _) as [d|] eqn:Hd; [by eexists|].
        exfalso. apply Hne.
        revert Hd.
        sgn_cases (Z.of_nat file' - Z.of_nat file)%Z;
          sgn_cases (Z.of_nat rank' - Z.of_nat rank)%Z;
          vm_compute; try done. intros _. f_equal; lia. }
    exists d. split; [done|].
    apply direction_between_offset in Hd as [_ Ho].
    unfold legal_move_test. rewrite Hty.
    apply single_step_Ok_true. split; [|done].
    rewrite (stepper_geometry _ _ _ _ _ Hk Hf Hr), Hty. simpl.
    assert (ahead_on_board d file rank 1 = true) as Hon.
    { unfold ahead_on_board. apply on_boardZ_spec. rewrite Ho. simpl.
      sgn_cases (Z.of_nat file' - Z.of_nat file)%Z;
        sgn_cases (Z.of_nat rank' - Z.of_nat rank)%Z; lia. }
    rewrite Hon. do 2 f_equal.
    apply ahead_eq_coord; [done|lia..|]. rewrite Ho. simpl.
    sgn_cases (Z.of_nat file' - Z.of_nat file)%Z;
      sgn_cases (Z.of_nat rank' - Z.of_nat rank)%Z; lia.
Qed.

(** ** The knight *)

(** Checked on every pair of squares: the knight's stepper returns the
    destination exactly on the L-shaped jumps, and raises nothing. *)
Lemma knight_lands self (file rank file' rank' : nat) :
  get_type self = Knight →
  (1 ≤ file ≤ 8)%nat → (1 ≤ rank ≤ 8)%nat →
  (1 ≤ file' ≤ 8)%nat → (1 ≤ rank' ≤ 8)%nat →
  lands self (coord file rank) (coord file' rank')
  = Ok (knight_shape file rank file' rank').
Proof.
  intros Hty Hf Hr Hf' Hr'. destruct self as [owner type i].
  simpl in Hty. subst type.
  each_file file Hf; each_file rank Hr; each_file file' Hf';
    each_file rank' Hr'; vm_compute; reflexivity.
Qed.

Lemma single_step_lands self start d destination g :
  move_direction start destination = Ok (Some d) →
  single_step self start d destination g = Ok true ↔
  lands self start destination = Ok true ∧
  ∀ q, board_state g !! destination = Some q →
       get_owner q ≠ get_owner self.
Proof.
  intros Hd. rewrite single_step_Ok_true. unfold lands. rewrite Hd.
  destruct (next_position self start d destination) as [next|e]; simpl.
  - split; intros [Hn Ho]; (split; [|done]).
    + simplify_eq. by rewrite bool_decide_eq_true_2.
    + injection Hn as Hn. apply bool_decide_eq_true in Hn. by subst.
  - by split; intros [? _].
Qed.

(** X9: the knight.  A move of a knight between two squares of the board is
    accepted exactly when the two squares are one file and two ranks, or
    two files and one rank, apart and the destination does not hold a piece
    of the knight's owner; what stands in between does not matter. *)
Theorem knight_rule self (file rank file' rank' : nat) g :
  reachable g →
  get_type self = Knight →
  (1 ≤ file ≤ 8)%nat → (1 ≤ rank ≤ 8)%nat →
  (1 ≤ file' ≤ 8)%nat → (1 ≤ rank' ≤ 8)%nat →
  position g !! self = Some (coord file rank) →
  accepted self (coord file' rank') g ↔
  ((Z.abs (Z.of_nat file' - Z.of_nat file) = 1 ∧
    Z.abs (Z.of_nat rank' - Z.of_nat rank) = 2) ∨
   (Z.abs (Z.of_nat file' - Z.of_nat file) = 2 ∧
    Z.abs (Z.of_nat rank' - Z.of_nat rank) = 1))%Z ∧
  ∀ q, board_state g !! coord file' rank' = Some q →
       get_owner q ≠ get_owner self.
Proof.
  intros Hc%reachable_consistent Hty Hf Hr Hf' Hr' Hp.
  rewrite (accepted_coords _ _ _ _ _ _ Hc Hf Hr Hf' Hr' Hp).
  pose proof (move_direction_coords file rank file' rank' Hf Hr Hf' Hr')
    as Hd.
  pose proof (knight_lands self file rank file' rank' Hty Hf Hr Hf' Hr')
    as Hl.
  assert (knight_shape file rank file' rank' = true ↔
          ((Z.abs (Z.of_nat file' - Z.of_nat file) = 1 ∧
            Z.abs (Z.of_nat rank' - Z.of_nat rank) = 2) ∨
           (Z.abs (Z.of_nat file' - Z.of_nat file) = 2 ∧
            Z.abs (Z.of_nat rank' - Z.of_nat rank) = 1))%Z) as Hshape.
  { unfold knight_shape.
    rewrite orb_true_iff, !andb_true_iff, !Z.eqb_eq. done. }
  rewrite <-Hshape. unfold legal_move_test. rewrite Hty. split.
  - intros (d & Hd' & Ht). rewrite Hd' in Hd.
    apply (single_step_lands _ _ _ _ _ Hd) in Ht as [Ht Ho].
    rewrite Hl in Ht. by injection Ht as ->.
  - intros [Hs Ho].
    destruct (direction_between file rank file' rank') as [d|] eqn:Hd'.
    + exists d. split; [done|].
      apply (single_step_lands _ _ _ _ _ Hd). by rewrite Hl, Hs.
    + unfold lands in Hl. rewrite Hd in Hl. congruence.
Qed.

(** ** Steps in numbers *)

(** The stepper of a piece that is not a knight returns a given square of
    the board exactly when the piece steps in the direction and the square
    is the next one. *)
Lemma step_lands_iff self (file rank file' rank' : nat) d destination :
  get_type self ≠ Knight →
  (1 ≤ file ≤ 8)%nat → (1 ≤ rank ≤ 8)%nat →
  (1 ≤ file' ≤ 8)%nat → (1 ≤ rank' ≤ 8)%nat →
  next_position self (coord file rank) d destination
  = Ok (Some (coord file' rank')) ↔
  steps_in (get_type self) (get_owner self) d = true ∧
  (Z.of_nat file' = Z.of_nat file + (offset d).1 ∧
   Z.of_nat rank' = Z.of_nat rank + (offset d).2)%Z.
Proof.
  intros Hk Hf Hr Hf' Hr'. rewrite (stepper_geometry _ _ _ _ _ Hk Hf Hr).
  destruct (steps_in _ _ d); simpl; [|by split; [|intros [? _]]].
  destruct (ahead_on_board d file rank 1) eqn:Hon.
  - split.
    + intros Hn%Ok_Some_inj. apply ahead_eq_coord in Hn; [|done|lia..].
      split; [done|]. lia.
    + intros [_ H]. do 2 f_equal. apply ahead_eq_coord; [done|lia..].
  - split; [done|]. intros [_ H]. exfalso.
    apply not_true_iff_false in Hon. apply Hon.
    unfold ahead_on_board. apply on_boardZ_spec. lia.
Qed.

(** The same from the square [k] steps ahead of [(file, rank)]. *)
Lemma stepper_ahead self (file rank : nat) d k destination :
  get_type self ≠ Knight →
  ahead_on_board d file rank k = true →
  next_position self (ahead d file rank k) d destination =
    Ok (if steps_in (get_type self) (get_owner self) d
           && ahead_on_board d file rank (k + 1)
        then Some (ahead d file rank (k + 1)) else None).
Proof.
  intros Hk Hon. unfold ahead_on_board in Hon.
  apply on_boardZ_spec in Hon as [Ha Hb].
  unfold ahead at 1. unfold coordZ.
  rewrite (stepper_geometry _ _ _ _ _ Hk) by lia.
  assert (ahead_on_board d
            (Z.to_nat (Z.of_nat file + k * (offset d).1))
            (Z.to_nat (Z.of_nat rank + k * (offset d).2)) 1
          = ahead_on_board d file rank (k + 1)) as ->.
  { unfold ahead_on_board. rewrite !Z2Nat.id by lia. f_equal; lia. }
  assert (ahead d
            (Z.to_nat (Z.of_nat file + k * (offset d).1))
            (Z.to_nat (Z.of_nat rank + k * (offset d).2)) 1
          = ahead d file rank (k + 1)) as ->; [|done].
  unfold ahead. rewrite !Z2Nat.id by lia. f_equal; lia.
Qed.

Lemma ahead_0 d (file rank : nat) : ahead d file rank 0 = coord file rank.
Proof.
  unfold ahead. rewrite !Z.mul_0_l, !Z.add_0_r. apply coordZ_coord.
Qed.

(** Two squares that differ have a direction between them. *)
Lemma direction_between_exists (file rank file' rank' : nat) :
  (file, rank) ≠ (file', rank') →
  ∃ d, direction_between file rank file' rank' = Some d.
Proof.
  intros Hne. unfold direction_between.
  destruct (direction_of _ _) as [d|] eqn:Hd; [by eexists|].
  exfalso. apply Hne. revert Hd.
  sgn_cases (Z.of_nat file' - Z.of_nat file)%Z;
    sgn_cases (Z.of_nat rank' - Z.of_nat rank)%Z;
    vm_compute; try done. intros _. f_equal; lia.
Qed.

Lemma diagonal_in_offset d :
  diagonal_in d = true ↔ ((offset d).1 ≠ 0 ∧ (offset d).2 ≠ 0)%Z.
Proof. destruct d; simpl; split; try done; intros [? ?]; done. Qed.

(** ** The pawn *)

Lemma pawn_diagonal_Ok_true self current d destination g :
  pawn_diagonal self current d destination g = Ok true ↔
  next_position self current d destination = Ok (Some destination) ∧
  ∃ q, board_state g !! destination = Some q ∧
       get_owner q ≠ get_owner self.
Proof.
  unfold pawn_diagonal.
  destruct (next_position self current d destination) as [[next|]|e];
    simpl; [|by split; [|intros [? _]]..].
  destruct (decide (next = destination)) as [->|Hne].
  - destruct (board_state g !! destination) as [other|].
    + rewrite bool_decide_eq_false_2 by (by intros ?).
      case_bool_decide as Ho; split; try done.
      * intros [_ (q & [= <-] & ?)]. congruence.
      * intros _. split; [done|]. exists other. split; [done|]. congruence.
    + split; [done|]. by intros [_ (q & ? & _)].
  - split; [|intros [[= ?] _]; done].
    destruct (board_state g !! next); [|done].
    by rewrite bool_decide_eq_true_2.
Qed.

Lemma pawn_first_move_Ok_true self current d destination g :
  pawn_first_move (seq 0 2) self current d destination g = Ok true ↔
  (next_position self current d destination = Ok (Some destination) ∧
   board_state g !! destination = None) ∨
  (∃ middle,
     next_position self current d destination = Ok (Some middle) ∧
     middle ≠ destination ∧
     board_state g !! middle = None ∧
     next_position self middle d destination = Ok (Some destination) ∧
     board_state g !! destination = None).
Proof.
  simpl.
  destruct (next_position self current d destination) as [[next|]|e];
    simpl.
  2,3: split; [done|]; intros [[? _]|(? & ? & _)]; done.
  destruct (decide (next = destination)) as [->|Hne].
  - destruct (board_state g !! destination) eqn:Hb.
    + split; [done|]. intros [[_ ?]|(m & [= <-] & ? & _)]; done.
    + rewrite bool_decide_eq_false_2 by (by intros ?).
      split; [|done]. intros _. by left.
  - destruct (board_state g !! next) eqn:Hb.
    { split; [done|].
      intros [[[= ?] _]|(m & [= <-] & _ & ? & _)]; congruence. }
    rewrite bool_decide_eq_true_2 by done.
    destruct (next_position self next d destination) as [[next2|]|e] eqn:Hn2;
      simpl.
    2,3: split; [done|];
      intros [[[= ?] _]|(m & [= <-] & _ & _ & ? & _)]; congruence.
    destruct (decide (next2 = destination)) as [->|Hne2].
    + destruct (board_state g !! destination) eqn:Hb2.
      * split; [done|].
        intros [[[= ?] _]|(m & [= <-] & _ & _ & _ & ?)]; congruence.
      * rewrite bool_decide_eq_false_2 by (by intros ?).
        split; [|done]. intros _. right. by exists next.
    + split.
      * destruct (board_state g !! next2); [done|].
        by rewrite bool_decide_eq_true_2.
      * intros [[[= ?] _]|(m & [= <-] & _ & _ & ? & _)]; congruence.
Qed.

Lemma pawn_later_move_Ok_true self current d destination g :
  pawn_later_move self current d destination g = Ok true ↔
  next_position self current d destination = Ok (Some destination) ∧
  if diagonal_in d
  then ∃ q, board_state g !! destination = Some q ∧
            get_owner q ≠ get_owner self
  else board_state g !! destination = None.
Proof.
  unfold pawn_later_move.
  destruct (next_position self current d destination) as [[next|]|e];
    simpl; [|by split; [|intros [? _]]..].
  destruct (decide (next = destination)) as [->|Hne].
  - destruct (diagonal_in d).
    + destruct (board_state g !! destination) as [other|].
      * rewrite bool_decide_eq_false_2 by (by intros ?).
        case_bool_decide as Ho; split; try done.
        -- intros [_ (q & [= <-] & ?)]. congruence.
        -- intros _. split; [done|]. exists other. split; [done|].
           congruence.
      * split; [done|]. by intros [_ (q & ? & _)].
    + destruct (board_state g !! destination) as [other|].
      * split; [done|]. by intros [_ ?].
      * by rewrite bool_decide_eq_false_2 by (by intros ?).
  - split; [|intros [[= ?] _]; done].
    destruct (diagonal_in d), (board_state g !! next); try done;
      by rewrite bool_decide_eq_true_2.
Qed.

(** The test of the starting rank, on a square of the board. *)
Lemma starting_rank_test (c : Color) (rank : nat) :
  (1 ≤ rank ≤ 8)%nat →
  ((ascii_of_nat (48 + rank) =? "2")%char && bool_decide (c = White))
  || ((ascii_of_nat (48 + rank) =? "7")%char && bool_decide (c = Black))
  = bool_decide (rank = starting_rank c).
Proof. intros Hr. each_file rank Hr; by destruct c. Qed.

Lemma steps_in_pawn c d :
  steps_in Pawn c d = true ↔ (offset d).2 = pawn_step c.
Proof. destruct c, d; simpl; split; done. Qed.

Lemma legal_move_test_pawn self (file rank : nat) d destination g :
  get_type self = Pawn →
  (1 ≤ rank ≤ 8)%nat →
  legal_move_test self (coord file rank) d destination g =
    if bool_decide (rank = starting_rank (get_owner self)) then
      if diagonal_in d
      then pawn_diagonal self (coord file rank) d destination g
      else pawn_first_move (seq 0 2) self (coord file rank) d destination g
    else pawn_later_move self (coord file rank) d destination g.
Proof.
  intros Hty Hr. unfold legal_move_test.
  rewrite Hty, index_coord_1.
  change (Ok (ascii_of_nat (48 + rank)) ≫= ?f)
    with (f (ascii_of_nat (48 + rank))).
  cbv beta. by rewrite starting_rank_test.
Qed.

(** Finishes a goal about files and ranks once the offsets of the direction
    are the signs of the differences. *)
Ltac pawn_arith c file rank file' rank' :=
  destruct c; unfold forward, starting_rank, pawn_step in *; simpl in *;
  sgn_cases (Z.of_nat file' - Z.of_nat file)%Z;
  sgn_cases (Z.of_nat rank' - Z.of_nat rank)%Z;
  simpl in *; try done; try lia.

(** X10: the pawn.  A move of a pawn between two squares of the board is
    accepted in exactly three cases: one square straight ahead onto an
    unoccupied square; two squares straight ahead from the starting rank
    over an unoccupied square onto an unoccupied square; one square ahead
    on a diagonal onto a piece of the other player.  Every other move of a
    pawn (backwards, sideways, further, onto a piece ahead, onto an empty
    diagonal) is rejected. *)
Theorem pawn_rule self (file rank file' rank' : nat) g :
  reachable g →
  get_type self = Pawn →
  (1 ≤ file ≤ 8)%nat → (1 ≤ rank ≤ 8)%nat →
  (1 ≤ file' ≤ 8)%nat → (1 ≤ rank' ≤ 8)%nat →
  position g !! self = Some (coord file rank) →
  let c := get_owner self in
  accepted self (coord file' rank') g ↔
  (file' = file ∧ rank' = forward c rank 1 ∧
   board_state g !! coord file' rank' = None) ∨
  (file' = file ∧ rank = starting_rank c ∧ rank' = forward c rank 2 ∧
   board_state g !! coord file (forward c rank 1) = None ∧
   board_state g !! coord file' rank' = None) ∨
  ((file' = file + 1 ∨ file = file' + 1)%nat ∧ rank' = forward c rank 1 ∧
   ∃ q, board_state g !! coord file' rank' = Some q ∧ get_owner q ≠ c).
Proof.
  intros Hc%reachable_consistent Hty Hf Hr Hf' Hr' Hp c.
  rewrite (accepted_coords _ _ _ _ _ _ Hc Hf Hr Hf' Hr' Hp).
  assert (get_type self ≠ Knight) as Hk by (by rewrite Hty).
  fold c. split.
  - intros (d & Hd & Ht). apply direction_between_offset in Hd as [Hne Ho].
    rewrite (legal_move_test_pawn _ _ _ _ _ _ Hty Hr) in Ht. fold c in Ht.
    case_bool_decide as Hstart.
    + destruct (diagonal_in d) eqn:Hdiag.
      * apply pawn_diagonal_Ok_true in Ht as [Hn Hq].
        apply step_lands_iff in Hn as (Hs & Hf1 & Hr1); [|done..].
        rewrite Hty in Hs. apply steps_in_pawn in Hs. fold c in Hs.
        apply diagonal_in_offset in Hdiag as [Hdx Hdy].
        rewrite Ho in *. right. right.
        split; [|split; [|done]]; pawn_arith c file rank file' rank'.
      * apply not_true_iff_false in Hdiag.
        rewrite diagonal_in_offset in Hdiag.
        apply pawn_first_move_Ok_true in Ht
          as [[Hn Hb]|(middle & Hn1 & Hmid & Hbm & Hn2 & Hb)].
        -- apply step_lands_iff in Hn as (Hs & Hf1 & Hr1); [|done..].
           rewrite Hty in Hs. apply steps_in_pawn in Hs. fold c in Hs.
           rewrite Ho in *. left.
           split; [|split; [|done]]; pawn_arith c file rank file' rank'.
        -- rewrite (stepper_geometry _ _ _ _ _ Hk Hf Hr) in Hn1.
           destruct (steps_in _ _ d) eqn:Hs; [|done].
           destruct (ahead_on_board d file rank 1) eqn:Hon1; [|done].
           apply Ok_Some_inj in Hn1. subst middle.
           rewrite (stepper_ahead _ _ _ _ _ _ Hk Hon1), Hs in Hn2.
           destruct (ahead_on_board d file rank (1 + 1)) eqn:Hon2; [|done].
           apply Ok_Some_inj in Hn2.
           apply ahead_eq_coord in Hn2 as [Hf2 Hr2]; [|done|lia..].
           rewrite Hty in Hs. apply steps_in_pawn in Hs. fold c in Hs.
           assert (ahead d file rank 1 = coord file (forward c rank 1))
             as Hm.
           { apply ahead_eq_coord; [done|lia| |].
             - rewrite Ho in *. pawn_arith c file rank file' rank'.
             - rewrite Ho in *. pawn_arith c file rank file' rank'. }
           rewrite Hm in Hbm. rewrite Ho in *. right. left.
           split; [|split; [done|split; [|done]]];
             pawn_arith c file rank file' rank'.
    + apply pawn_later_move_Ok_true in Ht as [Hn Hq].
      apply step_lands_iff in Hn as (Hs & Hf1 & Hr1); [|done..].
      rewrite Hty in Hs. apply steps_in_pawn in Hs. fold c in Hs.
      destruct (diagonal_in d) eqn:Hdiag.
      * apply diagonal_in_offset in Hdiag as [Hdx Hdy].
        rewrite Ho in *. right. right.
        split; [|split; [|done]]; pawn_arith c file rank file' rank'.
      * apply not_true_iff_false in Hdiag.
        rewrite diagonal_in_offset in Hdiag.
        rewrite Ho in *. left.
        split; [|split; [|done]]; pawn_arith c file rank file' rank'.
  - intros Hcases.
    assert ((file, rank) ≠ (file', rank')) as Hne.
    { intros [= <- <-].
      destruct Hcases as [(_ & H & _)|[(_ & _ & H & _)|(_ & H & _)]];
        revert H; unfold forward; destruct c; lia. }
    destruct (direction_between_exists _ _ _ _ Hne) as [d Hd].
    exists d. split; [done|].
    apply direction_between_offset in Hd as [_ Ho].
    rewrite (legal_move_test_pawn _ _ _ _ _ _ Hty Hr). fold c.
    assert (steps_in (get_type self) (get_owner self) d = true) as Hs.
    { rewrite Hty. apply steps_in_pawn. fold c. rewrite Ho.
      destruct Hcases as [(_ & H & _)|[(_ & _ & H & _)|(_ & H & _)]];
        pawn_arith c file rank file' rank'. }
    destruct Hcases as [(-> & Hr1 & Hb)|[(-> & Hst & Hr2 & Hbm & Hb)
                                        |(Hf1 & Hr1 & Hq)]].
    + assert (diagonal_in d = false) as Hdiag.
      { apply not_true_iff_false. rewrite diagonal_in_offset, Ho. simpl.
        rewrite Z.sub_diag. simpl. lia. }
      assert (next_position self (coord file rank) d (coord file rank')
              = Ok (Some (coord file rank'))) as Hn.
      { apply step_lands_iff; [done..|]. split; [done|]. rewrite Ho.
        pawn_arith c file rank file rank'. }
      case_bool_decide; rewrite ?Hdiag.
      * apply pawn_first_move_Ok_true. by left.
      * apply pawn_later_move_Ok_true. by rewrite Hdiag.
    + assert (diagonal_in d = false) as Hdiag.
      { apply not_true_iff_false. rewrite diagonal_in_offset, Ho. simpl.
        rewrite Z.sub_diag. simpl. lia. }
      rewrite bool_decide_eq_true_2, Hdiag by done.
      assert (ahead_on_board d file rank 1 = true ∧
              ahead_on_board d file rank (1 + 1) = true) as [Hon1 Hon2].
      { unfold ahead_on_board. rewrite !on_boardZ_spec, Ho.
        pawn_arith c file rank file rank'. }
      assert (ahead d file rank 1 = coord file (forward c rank 1)) as Hm.
      { apply ahead_eq_coord; [done|lia| |].
        - pawn_arith c file rank file rank'.
        - rewrite Ho. pawn_arith c file rank file rank'. }
      apply pawn_first_move_Ok_true. right.
      exists (coord file (forward c rank 1)). repeat split; try done.
      * rewrite (stepper_geometry _ _ _ _ _ Hk Hf Hr), Hs, Hon1.
        simpl. by rewrite Hm.
      * intros [_ H]%coord_inj;
          [revert H|..]; pawn_arith c file rank file rank'.
      * rewrite <-Hm, (stepper_ahead _ _ _ _ _ _ Hk Hon1), Hs, Hon2.
        simpl. do 2 f_equal. apply ahead_eq_coord; [done|lia..|].
        rewrite Ho. pawn_arith c file rank file rank'.
    + assert (diagonal_in d = true) as Hdiag.
      { apply diagonal_in_offset. rewrite Ho.
        pawn_arith c file rank file' rank'. }
      assert (next_position self (coord file rank) d (coord file' rank')
              = Ok (Some (coord file' rank'))) as Hn.
      { apply step_lands_iff; [done..|]. split; [done|]. rewrite Ho.
        pawn_arith c file rank file' rank'. }
      case_bool_decide; rewrite ?Hdiag.
      * by apply pawn_diagonal_Ok_true.
      * apply pawn_later_move_Ok_true. by rewrite Hdiag.
Qed.

(** ** Rook, bishop and queen *)

(** An accepted walk is a clear walk followed by a step onto the
    destination, which does not hold a piece of the mover's. *)
Lemma slide_Ok_true_inv fuel self current d destination g :
  slide fuel self current d destination g = Ok true →
  ∃ n s,
    clear_walk self d destination g n current s ∧
    next_position self s d destination = Ok (Some destination) ∧
    ∀ q, board_state g !! destination = Some q →
         get_owner q ≠ get_owner self.
Proof.
  revert current. induction fuel as [|fuel IH]; intros current H; [done|].
  simpl in H. stepped H next Hnext.
  destruct (board_state g !! next) as [other|] eqn:Hb.
  - repeat case_bool_decide; simplify_eq.
    exists 0%nat, current. split; [constructor|]. split; [done|].
    intros q Hq. congruence.
  - case_bool_decide as Hne.
    + destruct (IH _ H) as (n & s & Hw & Hn & Ho).
      exists (S n), s. split; [|done]. by econstructor.
    + subst next. exists 0%nat, current. split; [constructor|].
      split; [done|]. intros q ?. congruence.
Qed.

Lemma slide_Ok_true_intro self current d destination g n s :
  clear_walk self d destination g n current s →
  next_position self s d destination = Ok (Some destination) →
  (∀ q, board_state g !! destination = Some q →
        get_owner q ≠ get_owner self) →
  slide (n + 1) self current d destination g = Ok true.
Proof.
  intros Hw Hn Ho. rewrite (slide_clear_walk _ _ _ _ _ _ _ _ Hw).
  simpl. rewrite Hn. simpl.
  destruct (board_state g !! destination) as [other|] eqn:Hb.
  - rewrite bool_decide_eq_false_2 by (by intros ?).
    rewrite bool_decide_eq_false_2; [done|].
    intros Heq. by apply (Ho other).
  - by rewrite bool_decide_eq_false_2 by (by intros ?).
Qed.

(** A clear walk from a square of the board goes over the squares ahead of
    it, one after the other. *)
Lemma clear_walk_ahead self d destination g (file rank : nat) n current s
    (j0 : Z) :
  get_type self ≠ Knight →
  clear_walk self d destination g n current s →
  current = ahead d file rank j0 →
  ahead_on_board d file rank j0 = true →
  s = ahead d file rank (j0 + Z.of_nat n) ∧
  ahead_on_board d file rank (j0 + Z.of_nat n) = true ∧
  ∀ j, (j0 < j ≤ j0 + Z.of_nat n)%Z →
       board_state g !! ahead d file rank j = None.
Proof.
  intros Hk Hw. revert j0.
  induction Hw as [current|n current next s Hn Hb Hne Hw IH];
    intros j0 -> Hon.
  - rewrite Z.add_0_r. repeat split; try done. lia.
  - rewrite (stepper_ahead _ _ _ _ _ _ Hk Hon) in Hn.
    destruct (steps_in _ _ d && ahead_on_board d file rank (j0 + 1))
      eqn:Hs; [|done].
    apply andb_true_iff in Hs as [_ Hon1].
    apply Ok_Some_inj in Hn. subst next.
    destruct (IH (j0 + 1)%Z eq_refl Hon1) as (-> & Hon' & Hclear).
    replace (j0 + Z.of_nat (S n))%Z with (j0 + 1 + Z.of_nat n)%Z by lia.
    repeat split; try done.
    intros j Hj. destruct (decide (j = j0 + 1)%Z) as [->|]; [done|].
    apply Hclear. lia.
Qed.

Lemma clear_walk_build self d destination g (file rank : nat) (n : nat)
    (j0 : Z) :
  get_type self ≠ Knight →
  steps_in (get_type self) (get_owner self) d = true →
  ahead_on_board d file rank j0 = true →
  (∀ j, (j0 < j ≤ j0 + Z.of_nat n)%Z →
        ahead_on_board d file rank j = true ∧
        board_state g !! ahead d file rank j = None ∧
        ahead d file rank j ≠ destination) →
  clear_walk self d destination g n (ahead d file rank j0)
    (ahead d file rank (j0 + Z.of_nat n)).
Proof.
  intros Hk Hs. revert j0. induction n as [|n IH]; intros j0 Hon Hall.
  - rewrite Z.add_0_r. constructor.
  - destruct (Hall (j0 + 1)%Z) as (Hon1 & Hb & Hne); [lia|].
    replace (j0 + Z.of_nat (S n))%Z with (j0 + 1 + Z.of_nat n)%Z by lia.
    apply clear_walk_S with (next := ahead d file rank (j0 + 1)).
    + by rewrite (stepper_ahead _ _ _ _ _ _ Hk Hon), Hs, Hon1.
    + done.
    + done.
    + apply IH; [done|]. intros j Hj. apply Hall. lia.
Qed.

Lemma offset_range d :
  (-1 ≤ (offset d).1 ≤ 1 ∧ -1 ≤ (offset d).2 ≤ 1 ∧
   ((offset d).1 ≠ 0 ∨ (offset d).2 ≠ 0))%Z.
Proof. destruct d; simpl; lia. Qed.

(** X11: rook, bishop and queen.  A move of one of them between two squares
    of the board is accepted exactly when the destination lies some number
    of steps away in a direction the piece moves in (along a rank or file
    for the rook, along a diagonal for the bishop, either for the queen),
    every square passed on the way is unoccupied, and the destination does
    not hold a piece of the mover's. *)
Theorem sliding_rule self (file rank file' rank' : nat) g :
  reachable g →
  sliding self →
  (1 ≤ file ≤ 8)%nat → (1 ≤ rank ≤ 8)%nat →
  (1 ≤ file' ≤ 8)%nat → (1 ≤ rank' ≤ 8)%nat →
  position g !! self = Some (coord file rank) →
  accepted self (coord file' rank') g ↔
  ∃ d k,
    (1 ≤ k)%Z ∧
    steps_in (get_type self) (get_owner self) d = true ∧
    (Z.of_nat file' = Z.of_nat file + k * (offset d).1)%Z ∧
    (Z.of_nat rank' = Z.of_nat rank + k * (offset d).2)%Z ∧
    (∀ j, (1 ≤ j < k)%Z → board_state g !! ahead d file rank j = None) ∧
    ∀ q, board_state g !! coord file' rank' = Some q →
         get_owner q ≠ get_owner self.
Proof.
  intros Hc%reachable_consistent Hs Hf Hr Hf' Hr' Hp.
  rewrite (accepted_coords _ _ _ _ _ _ Hc Hf Hr Hf' Hr' Hp).
  assert (get_type self ≠ Knight) as Hk
    by (destruct Hs as [->|[->| ->]]; done).
  assert (∀ d, ahead_on_board d file rank 0 = true) as Hon0.
  { intros d. unfold ahead_on_board. apply on_boardZ_spec. lia. }
  split.
  - intros (d & Hd & Ht). apply direction_between_offset in Hd as [Hne Ho].
    rewrite legal_move_test_sliding in Ht by done.
    apply slide_Ok_true_inv in Ht as (n & s & Hw & Hn & Hown).
    destruct (clear_walk_ahead _ _ _ _ file rank _ _ _ 0 Hk Hw)
      as (-> & Hon & Hclear); [by rewrite ahead_0|done|].
    rewrite (stepper_ahead _ _ _ _ _ _ Hk Hon) in Hn.
    destruct (steps_in _ _ d) eqn:Hsd; [|done].
    destruct (ahead_on_board d file rank (0 + Z.of_nat n + 1)) eqn:Hon1;
      [|done].
    apply Ok_Some_inj, ahead_eq_coord in Hn as [Hf1 Hr1]; [|done|lia..].
    exists d, (0 + Z.of_nat n + 1)%Z. repeat split; try done; try lia.
    intros j Hj. apply Hclear. lia.
  - intros (d & k & Hk1 & Hsd & Hf1 & Hr1 & Hclear & Hown).
    pose proof (offset_range d) as Hrange.
    assert (direction_between file rank file' rank' = Some d) as Hd.
    { apply direction_between_offset. split.
      - intros [= <- <-]. destruct d; cbn [offset fst snd] in *; lia.
      - rewrite Hf1, Hr1.
        sgn_cases (Z.of_nat file + k * (offset d).1 - Z.of_nat file)%Z;
          sgn_cases (Z.of_nat rank + k * (offset d).2 - Z.of_nat rank)%Z;
          destruct d; cbn [offset fst snd] in *; f_equal; lia. }
    exists d. split; [done|].
    rewrite legal_move_test_sliding by done.
    assert (∀ j, (0 ≤ j ≤ k)%Z → ahead_on_board d file rank j = true)
      as Hon.
    { intros j Hj. unfold ahead_on_board. apply on_boardZ_spec.
      destruct d; cbn [offset fst snd] in *; lia. }
    apply (slide_any_fuel (Z.to_nat (k - 1) + 1)); [done|].
    apply (slide_Ok_true_intro _ _ _ _ _ _
             (ahead d file rank (0 + Z.of_nat (Z.to_nat (k - 1)))));
      [| |done].
    + rewrite <-(ahead_0 d file rank) at 1.
      apply (clear_walk_build self d _ g file rank _ 0 Hk Hsd (Hon0 d)).
      intros j Hj. split; [apply Hon; lia|]. split; [apply Hclear; lia|].
      intros Hj'. apply ahead_eq_coord in Hj' as [Hj1 Hj2];
        [|apply Hon; lia|lia..].
      destruct d; cbn [offset fst snd] in *; lia.
    + rewrite (stepper_ahead _ _ _ _ _ _ Hk) by (apply Hon; lia).
      rewrite Hsd. replace (0 + Z.of_nat (Z.to_nat (k - 1)) + 1)%Z with k
        by lia.
      rewrite Hon by lia. simpl. do 2 f_equal.
      by apply ahead_eq_coord; [apply Hon; lia|lia..|].
Qed.

(** ** No built-in exception on coordinates of the board *)

Lemma slide_ahead_Ok fuel self (file rank : nat) d j destination g :
  get_type self ≠ Knight →
  ahead_on_board d file rank j = true →
  (∃ b, slide fuel self (ahead d file rank j) d destination g = Ok b) ∨
  slide fuel self (ahead d file rank j) d destination g = Raise OutOfFuel.
Proof.
  intros Hk. revert j. induction fuel as [|fuel IH]; intros j Hon;
    [by right|].
  simpl. rewrite (stepper_ahead _ _ _ _ _ _ Hk Hon).
  destruct (steps_in _ _ d && ahead_on_board d file rank (j + 1)) eqn:Hs;
    simpl; [|left; by eexists].
  apply andb_true_iff in Hs as [_ Hon1].
  destruct (board_state g !! ahead d file rank (j + 1)).
  - left. repeat case_bool_decide; by eexists.
  - case_bool_decide; [by apply IH|left; by eexists].
Qed.

Lemma single_step_Ok self current d destination g o :
  next_position self current d destination = Ok o →
  ∃ b, single_step self current d destination g = Ok b.
Proof.
  intros Hn. unfold single_step. rewrite Hn. simpl.
  destruct o as [next|]; [|by eexists].
  case_bool_decide; [by eexists|].
  destruct (board_state g !! next); [|by eexists].
  case_bool_decide; by eexists.
Qed.

Lemma pawn_diagonal_Ok self current d destination g o :
  next_position self current d destination = Ok o →
  ∃ b, pawn_diagonal self current d destination g = Ok b.
Proof.
  intros Hn. unfold pawn_diagonal. rewrite Hn. simpl.
  destruct o as [next|]; [|by eexists].
  destruct (board_state g !! next); [|by eexists].
  repeat case_bool_decide; by eexists.
Qed.

Lemma pawn_later_move_Ok self current d destination g o :
  next_position self current d destination = Ok o →
  ∃ b, pawn_later_move self current d destination g = Ok b.
Proof.
  intros Hn. unfold pawn_later_move. rewrite Hn. simpl.
  destruct o as [next|]; [|by eexists].
  destruct (diagonal_in d), (board_state g !! next);
    repeat case_bool_decide; by eexists.
Qed.

Lemma pawn_first_move_Ok self current d destination g o :
  next_position self current d destination = Ok o →
  (∀ middle, o = Some middle →
             ∃ o', next_position self middle d destination = Ok o') →
  ∃ b, pawn_first_move (seq 0 2) self current d destination g = Ok b.
Proof.
  intros Hn Hmid. simpl. rewrite Hn. simpl.
  destruct o as [next|]; [|by eexists].
  destruct (board_state g !! next); [by eexists|].
  case_bool_decide; [|by eexists].
  destruct (Hmid next eq_refl) as [o' ->]. simpl.
  destruct o' as [next2|]; [|by eexists].
  destruct (board_state g !! next2); [by eexists|].
  case_bool_decide; by eexists.
Qed.

(** Between two squares of the board the tests of [move] raise nothing. *)
Lemma legal_move_test_Ok self (file rank file' rank' : nat) d g :
  (1 ≤ file ≤ 8)%nat → (1 ≤ rank ≤ 8)%nat →
  (1 ≤ file' ≤ 8)%nat → (1 ≤ rank' ≤ 8)%nat →
  direction_between file rank file' rank' = Some d →
  ∃ b, legal_move_test self (coord file rank) d (coord file' rank') g
       = Ok b.
Proof.
  intros Hf Hr Hf' Hr' Hd.
  assert (ahead_on_board d file rank 0 = true) as Hon0.
  { unfold ahead_on_board. apply on_boardZ_spec. lia. }
  assert (sliding self →
          ∃ b, slide slide_fuel self (coord file rank) d
                 (coord file' rank') g = Ok b) as Hslide.
  { intros Hs.
    assert (get_type self ≠ Knight) as Hk
      by (destruct Hs as [->|[->| ->]]; done).
    pose proof (slide_fuel_enough self (coord file rank) d
                  (coord file' rank') g Hs) as Hfuel.
    rewrite <-(ahead_0 d file rank) in Hfuel |- *.
    by destruct (slide_ahead_Ok slide_fuel self file rank d 0
                   (coord file' rank') g Hk Hon0). }
  destruct (get_type self) eqn:Hty.
  - assert (get_type self ≠ Knight) as Hk by (by rewrite Hty).
    rewrite (legal_move_test_pawn _ _ _ _ _ _ Hty Hr).
    case_bool_decide; [destruct (diagonal_in d) eqn:Hdiag|].
    + eapply pawn_diagonal_Ok. by apply stepper_geometry.
    + eapply pawn_first_move_Ok; [by apply stepper_geometry|].
      intros middle Hm. revert Hm. case_match eqn:Hs; [|done].
      intros [= <-]. apply andb_true_iff in Hs as [_ Hon1].
      eexists. by apply stepper_ahead.
    + eapply pawn_later_move_Ok. by apply stepper_geometry.
  - unfold legal_move_test. rewrite Hty.
    pose proof (knight_lands self file rank file' rank' Hty Hf Hr Hf' Hr')
      as Hl.
    unfold lands in Hl.
    rewrite (move_direction_coords _ _ _ _ Hf Hr Hf' Hr'), Hd in Hl.
    destruct (next_position self (coord file rank) d (coord file' rank'))
      as [o|e] eqn:Hn; [|done].
    by eapply single_step_Ok.
  - unfold legal_move_test. rewrite Hty. apply Hslide. unfold sliding. auto.
  - unfold legal_move_test. rewrite Hty. apply Hslide. unfold sliding. auto.
  - unfold legal_move_test. rewrite Hty. apply Hslide. unfold sliding. auto.
  - unfold legal_move_test. rewrite Hty.
    eapply single_step_Ok. apply stepper_geometry; [|done..].
    by rewrite Hty.
Qed.

(** X12: on two coordinates of the board, in a game played through
    [make_move] and [set_turn], [make_move] raises nothing but the three
    exceptions of the module: no built-in exception escapes, and the walk of
    a sliding piece always ends. *)
Theorem on_board_errors string1 string2 g e g' :
  reachable g →
  string1 ∈ board_keys → string2 ∈ board_keys →
  make_move string1 string2 g = (Raise e, g') →
  e = GameOverError ∨ e = MoveOutOfTurnError ∨ e = IllegalMoveError.
Proof.
  intros Hc%reachable_consistent Hk1 Hk2. unfold make_move.
  case_bool_decide; [intros; simplify_eq; auto|].
  rewrite outside_board_keys by done.
  unfold get_position_state, get_board_position.
  rewrite !decide_True by done. simpl.
  destruct (board_state g !! string1) as [self|] eqn:Hself;
    [|intros; simplify_eq; auto].
  case_bool_decide; [intros; simplify_eq; auto|].
  destruct (move self string2 g) as [[mv|err] g1] eqn:Hm.
  { destruct mv; simpl; intros; simplify_eq; auto. }
  intros ?. simplify_eq. exfalso.
  apply key_coord in Hk1 as (file & rank & Hf & Hr & ->).
  apply key_coord in Hk2 as (file' & rank' & Hf' & Hr' & ->).
  pose proof (occupant_position g Hc _ _ Hself) as Hp.
  unfold move in Hm.
  rewrite Hp, (move_direction_coords _ _ _ _ Hf Hr Hf' Hr') in Hm.
  destruct (direction_between file rank file' rank') as [d|] eqn:Hd;
    [|done].
  destruct (legal_move_test_Ok self file rank file' rank' d g Hf Hr Hf' Hr'
              Hd) as [b Hb].
  rewrite Hb in Hm. destruct b; [|done].
  pose proof (move_direction_coords _ _ _ _ Hf Hr Hf' Hr') as Hmd.
  rewrite Hd in Hmd. apply move_direction_neq in Hmd.
  by destruct (execute_move_consistent _ _ _ _ _ _ Hc Hself Hmd Hm)
    as [_ [mv ?]].
Qed.

Lemma on_board_errors_witness :
  IllegalMoveError = GameOverError ∨
  IllegalMoveError = MoveOutOfTurnError ∨
  IllegalMoveError = IllegalMoveError.
Proof.
  apply (on_board_errors "a1" "h8" new_game IllegalMoveError new_game).
  - apply reachable_new_game.
  - apply (bool_decide_unpack _). vm_compute. exact I.
  - apply (bool_decide_unpack _). vm_compute. exact I.
  - vm_compute. reflexivity.
Defined.

(** ** Rosters and board *)

Lemma list_remove_sublist x l l' : list_remove x l = Ok l' → l' `sublist_of` l.
Proof.
  revert l'. induction l as [|y l IH]; intros l' H; simpl in H; [done|].
  case_decide.
  - simplify_eq. by apply sublist_cons.
  - destruct (list_remove x l) as [l0|] eqn:E; [|done].
    injection H as <-. apply sublist_skip. by apply IH.
Qed.

Lemma filter_sublist_mono {A} (P : A → Prop) `{!∀ x, Decision (P x)}
    (l k : list A) :
  l `sublist_of` k → filter P l `sublist_of` filter P k.
Proof.
  induction 1 as [|x l k _ IH|x l k _ IH]; [done|..].
  - rewrite !filter_cons. case_decide; [by apply sublist_skip|done].
  - rewrite filter_cons. case_decide; [by apply sublist_cons|done].
Qed.

Lemma new_game_in_play : in_play new_game.
Proof.
  split.
  - apply new_game_consistent.
  - intros [] p; revert p; apply Forall_forall;
      apply (bool_decide_unpack _); vm_compute; exact I.
  - assert (∀ c, Forall (λ p, position new_game !! p
                              ≫= (λ sq, board_state new_game !! sq) = Some p)
                     (get_piece_list c new_game)) as H.
    { intros []; apply (bool_decide_unpack _); vm_compute; exact I. }
    intros c p Hp. specialize (H c). rewrite Forall_forall in H.
    specialize (H p Hp). destruct (position new_game !! p) as [sq|]; [|done].
    by exists sq.
  - intros p sq. revert p sq. apply map_Forall_lookup.
    apply (bool_decide_unpack _). vm_compute. exact I.
  - apply map_Forall_lookup.
    apply (bool_decide_unpack _). vm_compute. exact I.
  - by intros [].
  - intros _ c t.
    assert (Exists (λ p, get_type p = t) (get_piece_list c new_game)) as H.
    { destruct c, t; apply (bool_decide_unpack _); vm_compute; exact I. }
    apply Exists_exists in H as (p & ? & ?). by exists p.
  - by intros [].
Qed.

Lemma color_cases (c d : Color) : c = d ∨ c = other_player d.
Proof. destruct c, d; auto. Qed.

(** The rosters after [execute_move] has taken [q]. *)
Lemma capture_rosters g g1 q l :
  (∀ c p, p ∈ get_piece_list c g → get_owner p = c) →
  NoDup (get_piece_list (get_owner q) g) →
  list_remove q (get_piece_list (get_owner q) g) = Ok l →
  get_piece_list (get_owner q) g1 = l →
  get_piece_list (other_player (get_owner q)) g1 =
    get_piece_list (other_player (get_owner q)) g →
  (∀ c p, p ∈ get_piece_list c g1 ↔ p ∈ get_piece_list c g ∧ p ≠ q) ∧
  (∀ c, get_piece_list c g1 `sublist_of` get_piece_list c g).
Proof.
  intros Hown Hnd Hl Hl1 Hl2.
  destruct (list_remove_NoDup _ _ _ Hnd Hl) as [_ Hq]. split.
  - intros c p. destruct (color_cases c (get_owner q)) as [->| ->].
    + rewrite Hl1. split.
      * intros Hp. split; [by eapply list_remove_subseteq|by intros ->].
      * intros [Hp Hpq]. by apply (list_remove_other _ _ _ _ Hl).
    + rewrite Hl2. split; [|by intros []].
      intros Hp. split; [done|]. intros ->. apply Hown in Hp.
      by destruct (get_owner q).
  - intros c. destruct (color_cases c (get_owner q)) as [->| ->].
    + rewrite Hl1. by eapply list_remove_sublist.
    + by rewrite Hl2.
Qed.

Lemma not_last_piece t l :
  last_piece t l = false → ∃ p, p ∈ l ∧ get_type p = t.
Proof.
  unfold last_piece. induction l as [|p l IH]; simpl; [done|].
  case_bool_decide as Hp; simpl.
  - intros (p' & ? & ?)%IH. exists p'. split; [by apply list_elem_of_further|done].
  - intros _. exists p. split; [apply list_elem_of_here|].
    destruct (decide (get_type p = t)); [done|]. by destruct Hp.
Qed.

Lemma make_move_in_play string1 string2 g :
  in_play g → in_play (make_move string1 string2 g).2.
Proof.
  intros Hg. pose proof (in_play_consistent g Hg) as Hc.
  destruct (make_move string1 string2 g) as [[v|e] g'] eqn:Hmm; simpl;
    [|by apply make_move_Raise_consistent in Hmm as ->].
  pose proof (make_move_consistent string1 string2 g Hc) as Hc'.
  rewrite Hmm in Hc'. simpl in Hc'.
  pose proof Hmm as (_ & _ & _ & Hk2 & _)%make_move_Ok_inv.
  apply make_move_Ok_executed in Hmm as (Hs & self & direction & mv & g1 &
    Hself & Ho & Hne & _ & Ht & Hx & Ha); [|done].
  pose proof (occupant_position g Hc _ _ Hself) as Hpself.
  apply execute_move_inv in Hx as (Hs1 & Ht1 & Hb & Hx); [|done].
  pose proof Ha as (Hb' & Hp' & Hl')%after_move_fields.
  destruct Hg as [_ Hown Hon Hpo Hkey Hsub Hty Hlose].
  destruct (board_state g !! string2) as [q|] eqn:Hq.
  - destruct Hx as [Hp Hx].
    pose proof (legal_move_test_capture _ _ _ _ _ _ Ht Hq) as Hoq.
    pose proof (occupant_position g Hc _ _ Hq) as Hpq.
    assert (q ≠ self) as Hqs by (intros ->; congruence).
    destruct (list_remove q _) as [l|] eqn:Hl; [|by destruct Hx].
    destruct Hx as ([= ->] & Hl1 & Hl2).
    destruct (capture_rosters g g1 q l Hown (roster_NoDup g Hc _) Hl Hl1 Hl2)
      as [Hin Hsl].
    assert (game_state g' =
            if last_piece (get_type q) (get_piece_list (get_owner q) g1)
            then won (turn g) else UNFINISHED) as Hgs.
    { simpl in Ha. injection Ha as <-. simpl. by rewrite Ht1, Hs1, Hs. }
    clear Ha.
    split; try done.
    + intros c p. rewrite Hl'. intros [Hp0 _]%Hin. by apply Hown.
    + intros c p. rewrite Hl', Hb', Hb. intros [Hp0 Hpq0]%Hin.
      destruct (decide (p = self)) as [->|Hps].
      { exists string2. by rewrite lookup_insert_eq. }
      destruct (Hon _ _ Hp0) as [sq Hsq]. exists sq.
      rewrite lookup_insert_ne, lookup_delete_ne; [done|congruence..].
    + intros p sq. rewrite Hp', Hp, Hb', Hb.
      intros [Hpq0 Hps]%lookup_delete_Some.
      destruct (decide (p = self)) as [->|Hne'].
      { rewrite lookup_insert_eq in Hps. injection Hps as <-.
        by rewrite lookup_insert_eq. }
      rewrite lookup_insert_ne in Hps by done.
      apply Hpo in Hps.
      rewrite lookup_insert_ne, lookup_delete_ne; [done|congruence..].
    + intros sq p. rewrite Hb', Hb.
      intros [[-> _]|[_ Hsq]]%lookup_insert_Some; [done|].
      apply lookup_delete_Some in Hsq as [_ Hsq]. by eapply Hkey.
    + intros c. rewrite Hl'. etrans; [apply Hsl|apply Hsub].
    + rewrite Hgs.
      destruct (last_piece _ _) eqn:Hlast; [by destruct (turn g)|].
      intros _ c t. rewrite Hl'.
      destruct (decide (c = get_owner q ∧ t = get_type q)) as [[-> ->]|Hct].
      { destruct (not_last_piece _ _ Hlast) as (p & ? & ?). by exists p. }
      destruct (Hty Hs c t) as (p & Hp0 & Hpt). exists p. split; [|done].
      apply Hin. split; [done|]. intros ->. apply Hct.
      split; [|done]. symmetry. by apply Hown.
    + intros c. rewrite Hgs. destruct (last_piece _ _) eqn:Hlast.
      * intros Hw.
        assert (c = turn g) as -> by (by destruct c, (turn g)).
        exists (get_type q). intros p.
        assert (other_player (turn g) = get_owner q) as ->.
        { rewrite <-Ho. destruct (get_owner q), (get_owner self); done. }
        rewrite Hl'. by apply last_piece_spec.
      * by destruct c.
  - destruct Hx as ([= ->] & Hp & Hl).
    assert (game_state g' = UNFINISHED) as Hgs.
    { simpl in Ha. injection Ha as <-. simpl. by rewrite Hs1, Hs. }
    clear Ha.
    split; try done.
    + intros c p. rewrite Hl', Hl. apply Hown.
    + intros c p. rewrite Hl', Hl, Hb', Hb. intros Hp0.
      destruct (decide (p = self)) as [->|Hps].
      { exists string2. by rewrite lookup_insert_eq. }
      destruct (Hon _ _ Hp0) as [sq Hsq]. exists sq.
      rewrite lookup_insert_ne, lookup_delete_ne; [done|congruence..].
    + intros p sq. rewrite Hp', Hp, Hb', Hb.
      destruct (decide (p = self)) as [->|Hne'].
      { rewrite lookup_insert_eq. intros [= <-]. by rewrite lookup_insert_eq. }
      rewrite lookup_insert_ne by done. intros Hps%Hpo.
      rewrite lookup_insert_ne, lookup_delete_ne; [done|congruence..].
    + intros sq p. rewrite Hb', Hb.
      intros [[-> _]|[_ Hsq]]%lookup_insert_Some; [done|].
      apply lookup_delete_Some in Hsq as [_ Hsq]. by eapply Hkey.
    + intros c. rewrite Hl', Hl. apply Hsub.
    + intros _ c t. rewrite Hl', Hl. by apply Hty.
    + intros c. rewrite Hgs. by destruct c.
Qed.

Lemma set_turn_in_play turn_string g :
  in_play g → in_play (set_turn turn_string g).
Proof.
  intros Hg. pose proof (set_turn_consistent turn_string g
                           (in_play_consistent g Hg)) as Hc.
  destruct Hg as [_ Hown Hon Hpo Hkey Hsub Hty Hlose].
  assert (∀ c, get_piece_list c (set_turn turn_string g)
               = get_piece_list c g) as Hl
    by (intros []; unfold set_turn; by case_bool_decide).
  assert (board_state (set_turn turn_string g) = board_state g) as Hb
    by (unfold set_turn; by case_bool_decide).
  assert (position (set_turn turn_string g) = position g) as Hp
    by (unfold set_turn; by case_bool_decide).
  assert (game_state (set_turn turn_string g) = game_state g) as Hs
    by (unfold set_turn; by case_bool_decide).
  split; try done; intros *; rewrite ?Hl, ?Hb, ?Hp, ?Hs; eauto.
  intros Hu c t. rewrite Hl. by apply Hty.
Qed.

Lemma reachable_in_play g : reachable g → in_play g.
Proof.
  induction 1 as [|g s1 s2 _ IH|g t _ IH].
  - apply new_game_in_play.
  - by apply make_move_in_play.
  - by apply set_turn_in_play.
Qed.

(** X13: rosters and board describe the same pieces.  In every state of a
    game a piece is in the roster of its owner exactly when it stands on a
    square; it is in no other roster; the square a piece stands on is the
    position the piece records, and the other way round; and only the 64
    squares of the board are ever occupied. *)
Theorem roster_matches_board g p :
  reachable g →
  (p ∈ get_piece_list (get_owner p) g ↔
   ∃ sq, board_state g !! sq = Some p) ∧
  (∀ c, p ∈ get_piece_list c g → c = get_owner p) ∧
  (∀ sq, board_state g !! sq = Some p ↔ position g !! p = Some sq) ∧
  (∀ sq, board_state g !! sq = Some p → sq ∈ board_keys).
Proof.
  intros Hg%reachable_in_play.
  pose proof (in_play_consistent g Hg) as Hc.
  repeat split.
  - apply (roster_on_board g Hg).
  - intros [sq Hsq]. by apply (occupant_in_roster g Hc sq).
  - intros c Hp. symmetry. by apply (roster_owner g Hg).
  - apply (occupant_position g Hc).
  - apply (position_occupant g Hg).
  - intros sq. apply (occupied_key g Hg).
Qed.

Lemma roster_matches_board_witness :
  let g := play queen_hunt new_game in
  let p := mkPiece Black Queen 14 in
  p ∈ get_piece_list (get_owner p) g ↔ ∃ sq, board_state g !! sq = Some p.
Proof.
  intros g p.
  destruct (roster_matches_board g p) as [H _]; [|exact H].
  apply reachable_play, reachable_new_game.
Defined.

(** X14: the game is unfinished exactly as long as both players have at
    least one piece of each of the six types. *)
Theorem unfinished_iff_all_types g :
  reachable g →
  game_state g = UNFINISHED ↔
  ∀ c t, ∃ p, p ∈ get_piece_list c g ∧ get_type p = t.
Proof.
  intros Hg%reachable_in_play. split; [apply (types_present g Hg)|].
  intros Hall.
  assert (∀ c, game_state g ≠ won c) as Hw.
  { intros c (t & Ht)%(loser_lacks_type g Hg).
    destruct (Hall (other_player c) t) as (p & Hp & Hpt). by apply (Ht p). }
  pose proof (Hw White). pose proof (Hw Black).
  by destruct (game_state g).
Qed.

Lemma unfinished_iff_all_types_witness :
  let g := play queen_hunt new_game in
  game_state g = UNFINISHED ↔
  ∀ c t, ∃ p, p ∈ get_piece_list c g ∧ get_type p = t.
Proof.
  intros g. refine (unfinished_iff_all_types g _).
  apply reachable_play, reachable_new_game.
Defined.

(** X15: no piece is ever added to a roster, and none changes its place in
    it: the roster of a player is the starting roster with some pieces
    left out, so it never holds more than the sixteen pieces, the eight
    pawns or the one king and queen it started with. *)
Theorem roster_of_starting_pieces g c :
  reachable g →
  get_piece_list c g `sublist_of` (starting_pieces c).*1 ∧
  (List.length (get_piece_list c g) ≤ 16)%nat ∧
  ∀ t, (List.length (filter (λ p, get_type p = t) (get_piece_list c g))
        ≤ List.length (filter (λ p, get_type p = t) (starting_pieces c).*1))%nat.
Proof.
  intros Hg%reachable_in_play.
  pose proof (roster_sublist g Hg c) as Hsub.
  split; [done|]. split.
  - apply sublist_length in Hsub. rewrite Hsub. destruct c; vm_compute; lia.
  - intros t. by apply sublist_length, filter_sublist_mono.
Qed.

Lemma roster_of_starting_pieces_witness :
  let g := play queen_hunt new_game in
  get_piece_list Black g `sublist_of` (starting_pieces Black).*1.
Proof.
  intros g.
  destruct (roster_of_starting_pieces g Black) as [H _]; [|exact H].
  apply reachable_play, reachable_new_game.
Defined.

Lemma stepper_geometry_witness :
  next_position (mkPiece White Rook 8) "a1" up "a3" = Ok (Some "a2").
Proof.
  apply (stepper_geometry (mkPiece White Rook 8) 1 1 up "a3").
  - discriminate.
  - lia.
  - lia.
Defined.

Lemma king_rule_witness :
  accepted (mkPiece White King 15) "e2"
    (play [("e2", "e4"); ("e7", "e5")] new_game).
Proof.
  apply (king_rule (mkPiece White King 15) 5 1 5 2
           (play [("e2", "e4"); ("e7", "e5")] new_game)).
  - apply reachable_play, reachable_new_game.
  - reflexivity.
  - lia.
  - lia.
  - lia.
  - lia.
  - vm_compute. reflexivity.
  - split; [discriminate|]. split; [lia|]. split; [lia|].
    intros q Hq. vm_compute in Hq. discriminate.
Defined.

Lemma knight_rule_witness :
  accepted (mkPiece White Knight 10) "c3" new_game.
Proof.
  apply (knight_rule (mkPiece White Knight 10) 2 1 3 3 new_game).
  - apply reachable_new_game.
  - reflexivity.
  - lia.
  - lia.
  - lia.
  - lia.
  - vm_compute. reflexivity.
  - split; [left; lia|].
    intros q Hq. vm_compute in Hq. discriminate.
Defined.

Lemma pawn_rule_witness :
  accepted (mkPiece White Pawn 4) "d5" (play pawn_trade new_game).
Proof.
  apply (pawn_rule (mkPiece White Pawn 4) 5 4 4 5 (play pawn_trade new_game)).
  - apply reachable_play, reachable_new_game.
  - reflexivity.
  - lia.
  - lia.
  - lia.
  - lia.
  - vm_compute. reflexivity.
  - right. right. split; [right; reflexivity|]. split; [reflexivity|].
    exists (mkPiece Black Pawn 3). split; [vm_compute; reflexivity|discriminate].
Defined.

Lemma sliding_rule_witness :
  accepted (mkPiece White Bishop 13) "a6" (play queen_hunt new_game).
Proof.
  apply (sliding_rule (mkPiece White Bishop 13) 6 1 1 6
           (play queen_hunt new_game)).
  - apply reachable_play, reachable_new_game.
  - right. left. reflexivity.
  - lia.
  - lia.
  - lia.
  - lia.
  - vm_compute. reflexivity.
  - exists diagonal_up_left, 5%Z.
    split; [lia|]. split; [reflexivity|]. split; [reflexivity|].
    split; [reflexivity|]. split.
    + intros j Hj.
      assert (j = 1 ∨ j = 2 ∨ j = 3 ∨ j = 4)%Z as [->|[->|[->| ->]]] by lia;
        vm_compute; reflexivity.
    + intros q Hq. vm_compute in Hq. injection Hq as <-. discriminate.
Defined.
